(** * Authenticated session gateway of shopify-mcp (the streamable-HTTP server)

    A shallow embedding of the remote HTTP gateway: the bearer-token
    validator with its hashed, TTL-bounded, capacity-bounded cache, the
    auth middleware, and the session registry behind [/mcp].

    Conventions of the embedding.
    - A JavaScript string is a [string]; every [ascii] is one code unit in
      0..255, which is what Node hands out for HTTP header values.
    - Instants and durations are integers ([Z], milliseconds since the
      epoch); the [exp] claim of a token is an integer number of seconds.
    - The module-level [Map]s are association lists in insertion order
      with pairwise distinct keys.
    - The identity provider, the clock, the base64/JSON decoder and the
      protocol library's [isInitializeRequest] are arguments.
    - One validation runs to completion: what other requests do while it
      awaits the identity provider is not part of the embedding. *)

From Stdlib Require Import ZArith List Bool Ascii String Lia Permutation Sorted.
Import ListNotations.

Local Open Scope string_scope.
Local Open Scope Z_scope.

Set Warnings "-register-all".

(* ================================================================== *)
(** ** JavaScript strings *)

Module JsString.

(** [String.prototype.startsWith]. *)
Definition startsWith (s pre : string) : bool := String.prefix pre s.

Fixpoint drop (n : nat) (s : string) : string :=
  match n, s with
  | O, _ => s
  | S _, EmptyString => EmptyString
  | S n', String _ s' => drop n' s'
  end.

(** [s.replace(pat, '')] for a non-empty string pattern: the first
    occurrence of [pat], scanning from the left, is cut out. *)
Fixpoint remove_first (pat s : string) : string :=
  if String.prefix pat s then drop (String.length pat) s
  else match s with
       | EmptyString => EmptyString
       | String c s' => String c (remove_first pat s')
       end.

(** White space and line terminators of ECMAScript among the code
    units 0..255: TAB, LF, VT, FF, CR, SP and NBSP. *)
Definition is_space (c : ascii) : bool :=
  let n := nat_of_ascii c in
  (Nat.eqb n 9 || Nat.eqb n 10 || Nat.eqb n 11 || Nat.eqb n 12
   || Nat.eqb n 13 || Nat.eqb n 32 || Nat.eqb n 160)%bool.

Fixpoint trimStart (s : string) : string :=
  match s with
  | EmptyString => EmptyString
  | String c s' => if is_space c then trimStart s' else s
  end.

Fixpoint trimEnd (s : string) : string :=
  match s with
  | EmptyString => EmptyString
  | String c s' =>
      match trimEnd s' with
      | EmptyString => if is_space c then EmptyString else String c EmptyString
      | r => String c r
      end
  end.

(** [String.prototype.trim]. *)
Definition trim (s : string) : string := trimEnd (trimStart s).

(** [s.split(sep)] for a one-character separator. *)
Fixpoint split (sep : ascii) (s : string) : list string :=
  match s with
  | EmptyString => [EmptyString]
  | String c s' =>
      let parts := split sep s' in
      if Ascii.eqb c sep then EmptyString :: parts
      else match parts with
           | p :: ps => String c p :: ps
           | [] => [String c EmptyString]
           end
  end.

(** [c.repeat(n)]. *)
Fixpoint repeat (c : ascii) (n : nat) : string :=
  match n with
  | O => EmptyString
  | S n' => String c (repeat c n')
  end.

(** Truthiness of a string: only the empty string is falsy. *)
Definition truthy (s : string) : bool :=
  match s with EmptyString => false | _ => true end.

Definition dquote : string := String (ascii_of_nat 34) EmptyString.

End JsString.

(* ================================================================== *)
(** ** SHA-256 (FIPS 180-4), as computed by [createHash('sha256')] *)

Module Sha256.

Definition mask32 : Z := 0xffffffff.
Definition add32 (a b : Z) : Z := Z.land (a + b) mask32.
Definition not32 (a : Z) : Z := Z.lxor a mask32.
Definition rotr (n x : Z) : Z :=
  Z.lor (Z.shiftr x n) (Z.land (Z.shiftl x (32 - n)) mask32).
Definition shr (n x : Z) : Z := Z.shiftr x n.

Definition Ch (x y z : Z) : Z := Z.lxor (Z.land x y) (Z.land (not32 x) z).
Definition Maj (x y z : Z) : Z :=
  Z.lxor (Z.lxor (Z.land x y) (Z.land x z)) (Z.land y z).
Definition Sigma0 (x : Z) : Z := Z.lxor (Z.lxor (rotr 2 x) (rotr 13 x)) (rotr 22 x).
Definition Sigma1 (x : Z) : Z := Z.lxor (Z.lxor (rotr 6 x) (rotr 11 x)) (rotr 25 x).
Definition sigma0 (x : Z) : Z := Z.lxor (Z.lxor (rotr 7 x) (rotr 18 x)) (shr 3 x).
Definition sigma1 (x : Z) : Z := Z.lxor (Z.lxor (rotr 17 x) (rotr 19 x)) (shr 10 x).

(** The round constants are the first 32 bits of the fractional parts of
    the cube roots of the first 64 primes; the initial chaining value takes
    those of the square roots of the first 8 primes (FIPS 180-4, 4.2.2 and
    5.3.3). *)
Definition primes : list Z :=
  [2; 3; 5; 7; 11; 13; 17; 19; 23; 29; 31; 37; 41; 43; 47; 53; 59; 61; 67;
   71; 73; 79; 83; 89; 97; 101; 103; 107; 109; 113; 127; 131; 137; 139; 149;
   151; 157; 163; 167; 173; 179; 181; 191; 193; 197; 199; 211; 223; 227; 229;
   233; 239; 241; 251; 257; 263; 269; 271; 277; 281; 283; 293; 307; 311].

(** Integer cube root, one bit at a time from [2 ^ bits] down. *)
Fixpoint cbrt_bits (bits : nat) (n r : Z) : Z :=
  match bits with
  | O => r
  | S b =>
      let r' := r + Z.shiftl 1 (Z.of_nat b) in
      cbrt_bits b n (if r' * r' * r' <=? n then r' else r)
  end.

Definition frac_cbrt32 (p : Z) : Z :=
  Z.land (cbrt_bits 36 (Z.shiftl p 96) 0) mask32.

Definition frac_sqrt32 (p : Z) : Z :=
  Z.land (Z.sqrt (Z.shiftl p 64)) mask32.

Definition K : list Z := Eval vm_compute in map frac_cbrt32 primes.

(** The eight working variables, also the chaining value. *)
Record State := mkState {
  sa : Z; sb : Z; sc : Z; sd : Z; se : Z; sf : Z; sg : Z; sh : Z }.

Definition H0 : State :=
  Eval vm_compute in
  match map frac_sqrt32 (firstn 8 primes) with
  | [a; b; c; d; e; f; g; h] => mkState a b c d e f g h
  | _ => mkState 0 0 0 0 0 0 0 0
  end.

(** Padding: a 1 bit, zeros up to 56 mod 64, the bit length on 8 bytes. *)
Definition be_bytes (width : nat) (x : Z) : list Z :=
  map (fun i => Z.land (Z.shiftr x (8 * Z.of_nat i)) 0xff) (rev (seq 0 width)).

Definition pad (msg : list Z) : list Z :=
  let len := Z.of_nat (List.length msg) in
  let zeros := Z.to_nat ((64 - (len + 9) mod 64) mod 64) in
  msg ++ [0x80] ++ List.repeat 0 zeros ++ be_bytes 8 (8 * len).

Fixpoint be_words (bs : list Z) : list Z :=
  match bs with
  | a :: b :: c :: d :: rest =>
      Z.lor (Z.shiftl a 24) (Z.lor (Z.shiftl b 16) (Z.lor (Z.shiftl c 8) d))
      :: be_words rest
  | _ => []
  end.

Fixpoint blocks (fuel : nat) (bs : list Z) : list (list Z) :=
  match fuel, bs with
  | O, _ => []
  | _, [] => []
  | S fuel', _ => firstn 64 bs :: blocks fuel' (skipn 64 bs)
  end.

(** Message schedule: 16 words extended to 64. *)
Fixpoint schedule (more : nat) (w : list Z) : list Z :=
  match more with
  | O => w
  | S more' =>
      let t := List.length w in
      let at_ i := nth (t - i) w 0 in
      schedule more'
        (w ++ [add32 (add32 (sigma1 (at_ 2%nat)) (at_ 7%nat))
                     (add32 (sigma0 (at_ 15%nat)) (at_ 16%nat))])
  end.

Definition round (s : State) (kw : Z * Z) : State :=
  let (k, w) := kw in
  let t1 := add32 (add32 (add32 (sh s) (Sigma1 (se s)))
                         (add32 (Ch (se s) (sf s) (sg s)) k)) w in
  let t2 := add32 (Sigma0 (sa s)) (Maj (sa s) (sb s) (sc s)) in
  mkState (add32 t1 t2) (sa s) (sb s) (sc s)
          (add32 (sd s) t1) (se s) (sf s) (sg s).

Definition compress (h : State) (block : list Z) : State :=
  let w := schedule 48 (be_words block) in
  let s := fold_left round (combine K w) h in
  mkState (add32 (sa h) (sa s)) (add32 (sb h) (sb s))
          (add32 (sc h) (sc s)) (add32 (sd h) (sd s))
          (add32 (se h) (se s)) (add32 (sf h) (sf s))
          (add32 (sg h) (sg s)) (add32 (sh h) (sh s)).

Definition digest (msg : list Z) : State :=
  let p := pad msg in
  fold_left compress (blocks (List.length p) p) H0.

(** [digest('hex')]: lower-case hexadecimal, 8 digits per word. *)
Definition hexdigit (n : Z) : ascii :=
  nth (Z.to_nat (Z.land n 15))
      (list_ascii_of_string "0123456789abcdef") "0"%char.

Definition hex32 (w : Z) (tail : string) : string :=
  String (hexdigit (Z.shiftr w 28)) (String (hexdigit (Z.shiftr w 24))
  (String (hexdigit (Z.shiftr w 20)) (String (hexdigit (Z.shiftr w 16))
  (String (hexdigit (Z.shiftr w 12)) (String (hexdigit (Z.shiftr w 8))
  (String (hexdigit (Z.shiftr w 4)) (String (hexdigit w) tail))))))).

Definition hex (s : State) : string :=
  hex32 (sa s) (hex32 (sb s) (hex32 (sc s) (hex32 (sd s)
  (hex32 (se s) (hex32 (sf s) (hex32 (sg s) (hex32 (sh s) EmptyString))))))).

(** [update(string)] feeds the UTF-8 encoding of the string. *)
Definition utf8 (s : string) : list Z :=
  flat_map (fun c : ascii =>
              let n := Z.of_nat (nat_of_ascii c) in
              if n <? 128 then [n]
              else [Z.lor 0xc0 (Z.shiftr n 6); Z.lor 0x80 (Z.land n 0x3f)])
           (list_ascii_of_string s).

Definition sha256_hex (s : string) : string := hex (digest (utf8 s)).

End Sha256.

(* ================================================================== *)
(** ** JSON values, as produced by [JSON.parse] and [response.json()] *)

Inductive Json : Type :=
| JNull
| JBool (b : bool)
| JNum (n : Z)
| JStr (s : string)
| JArr (items : list Json)
| JObj (fields : list (string * Json)).

Module Js.

(** ToBoolean on a JSON value. *)
Definition truthy (v : Json) : bool :=
  match v with
  | JNull => false
  | JBool b => b
  | JNum n => negb (n =? 0)
  | JStr s => JsString.truthy s
  | JArr _ | JObj _ => true
  end.

(** Own property of a parsed object; a repeated key keeps its last value. *)
Definition field (name : string) (fields : list (string * Json)) : option Json :=
  fold_left (fun acc kv => if String.eqb (fst kv) name then Some (snd kv) else acc)
            fields None.

(** Result of evaluating [v.name]. *)
Inductive Access : Type :=
| TypeError                 (* v is null *)
| Undefined
| Value (x : Json).

Definition prop (name : string) (v : Json) : Access :=
  match v with
  | JNull => TypeError
  | JObj fields => match field name fields with
                   | Some x => Value x
                   | None => Undefined
                   end
  | _ => Undefined
  end.

End Js.

(** ToString as a template literal applies it to a parsed JSON value;
    [false] when the conversion throws. A primitive always converts. An
    object converts through [Object.prototype.toString] unless it has an
    own [toString] property, which is never callable in parsed JSON and
    leaves no conversion that returns a primitive. An array joins the
    conversions of its elements. *)
Fixpoint stringifiable (v : Json) : bool :=
  match v with
  | JArr items => forallb stringifiable items
  | JObj fields =>
      negb (existsb (fun kv => String.eqb (fst kv) "toString") fields)
  | _ => true
  end.

(** Does [`${info.email || info.sub || 'unknown'}`] throw? Reading a
    property of [null] does; so does converting the chosen value when it
    is not [stringifiable]. *)
Definition user_label_throws (info : Json) : bool :=
  let sub_part :=
    match Js.prop "sub" info with
    | Js.Value s => if Js.truthy s then negb (stringifiable s) else false
    | _ => false
    end in
  match Js.prop "email" info with
  | Js.TypeError => true
  | Js.Value e => if Js.truthy e then negb (stringifiable e) else sub_part
  | Js.Undefined => sub_part
  end.

(* ================================================================== *)
(** ** [Map<string, V>]: insertion-ordered, keys pairwise distinct *)

Module JsMap.
Section Ops.
Context {V : Type}.

Definition t := list (string * V).

Definition keys (m : t) : list string := map fst m.

Definition wf (m : t) : Prop := NoDup (keys m).

Definition size (m : t) : nat := List.length m.

Fixpoint get (k : string) (m : t) : option V :=
  match m with
  | [] => None
  | (k', v) :: m' => if String.eqb k k' then Some v else get k m'
  end.

Definition has (k : string) (m : t) : bool :=
  match get k m with Some _ => true | None => false end.

(** [set] overwrites in place, or appends a new key at the end. *)
Fixpoint set (k : string) (v : V) (m : t) : t :=
  match m with
  | [] => [(k, v)]
  | (k', v') :: m' =>
      if String.eqb k k' then (k, v) :: m' else (k', v') :: set k v m'
  end.

Fixpoint delete (k : string) (m : t) : t :=
  match m with
  | [] => []
  | (k', v') :: m' =>
      if String.eqb k k' then m' else (k', v') :: delete k m'
  end.

End Ops.
Arguments t : clear implicits.
End JsMap.

(* ================================================================== *)
(** ** Configuration and the token-validation cache *)

Record Config : Type := {
  AUTH0_DOMAIN : option string;       (* process.env.AUTH0_DOMAIN *)
  MCP_SERVER_URL : string;
  TOKEN_CACHE_TTL : Z;                (* milliseconds *)
  TOKEN_CACHE_MAX_SIZE : Z
}.

(** [AUTH0_DOMAIN] passes [!AUTH0_DOMAIN] when it is set and non-empty. *)
Definition domain_of (cfg : Config) : option string :=
  match AUTH0_DOMAIN cfg with
  | Some d => if JsString.truthy d then Some d else None
  | None => None
  end.

Record CacheEntry : Type := { userInfo : Json; expiry : Z }.

Definition TokenCache := JsMap.t CacheEntry.

Definition hashToken (token : string) : string := Sha256.sha256_hex token.

(** [entries.sort((a, b) => a[1].expiry - b[1].expiry)]: ascending by
    expiry; the sort is stable, so ties keep their insertion order. *)
Fixpoint insert_by_expiry (x : string * CacheEntry) (l : list (string * CacheEntry))
  : list (string * CacheEntry) :=
  match l with
  | [] => [x]
  | y :: l' =>
      if expiry (snd x) <=? expiry (snd y) then x :: y :: l'
      else y :: insert_by_expiry x l'
  end.

Fixpoint sort_by_expiry (l : list (string * CacheEntry)) : list (string * CacheEntry) :=
  match l with
  | [] => []
  | x :: l' => insert_by_expiry x (sort_by_expiry l')
  end.

(** [for (let i = 0; i < toRemove; i++) _tokenCache.delete(sorted[i][0])].
    Reading [sorted[i][0]] past the end of [sorted] raises a TypeError;
    the flag reports it, the deletions made so far stay. *)
Fixpoint evict_loop (sorted : list (string * CacheEntry)) (i remaining : nat)
                    (c : TokenCache) : TokenCache * bool :=
  match remaining with
  | O => (c, false)
  | S r =>
      match nth_error sorted i with
      | None => (c, true)
      | Some (k, _) => evict_loop sorted (S i) r (JsMap.delete k c)
      end
  end.

(** The size check that follows [_tokenCache.set]. *)
Definition enforce_limit (max : Z) (c : TokenCache) : TokenCache * bool :=
  if Z.of_nat (JsMap.size c) >? max then
    let sorted := sort_by_expiry c in
    let toRemove := Z.of_nat (JsMap.size c) - max in
    evict_loop sorted 0 (Z.to_nat toRemove) c
  else (c, false).

(** Insert as the validator does it: [set], then the size check. *)
Definition cache_insert (max : Z) (k : string) (e : CacheEntry) (c : TokenCache)
  : TokenCache * bool :=
  enforce_limit max (JsMap.set k e c).

(** The cache read of the validator: a live entry is a hit; an expired
    one is deleted and counts as a miss. *)
Definition cache_lookup (now : Z) (k : string) (c : TokenCache)
  : option Json * TokenCache :=
  match JsMap.get k c with
  | Some cached =>
      if now <? expiry cached then (Some (userInfo cached), c)
      else (None, JsMap.delete k c)
  | None => (None, c)
  end.

(* ================================================================== *)
(** ** The world outside the validator *)

(** What [fetch(userinfoUrl, ...)] followed by [response.json()] can do. *)
Inductive FetchOutcome : Type :=
| FetchRejected                                  (* network-level failure *)
| FetchResponse (ok : bool) (status : Z) (body : option Json).
                                                 (* body None: not JSON *)

Record Env : Type := {
  now : Z;                                       (* Date.now() *)
  fetch : string -> string -> FetchOutcome       (* url, Authorization *)
}.

Record World : Type := {
  tokenCache : TokenCache;                       (* _tokenCache *)
  userinfoCalls : list (string * string)         (* requests sent: url, Authorization *)
}.

Definition with_cache (c : TokenCache) (w : World) : World :=
  {| tokenCache := c; userinfoCalls := userinfoCalls w |}.

Definition with_call (url auth : string) (w : World) : World :=
  {| tokenCache := tokenCache w; userinfoCalls := userinfoCalls w ++ [(url, auth)] |}.

(** A header read as [string | undefined]: as a condition, and with the
    empty string standing in when it is missing ([h || '']). *)
Definition header_truthy (h : option string) : bool :=
  match h with Some s => JsString.truthy s | None => false end.

Definition header_text (h : option string) : string :=
  match h with Some s => s | None => EmptyString end.

Definition initial_world : World := {| tokenCache := []; userinfoCalls := [] |}.

Section Validator.

(** [JSON.parse(Buffer.from(s, 'base64').toString())]; [None] when it throws. *)
Variable decodePayload : string -> option Json.

Variable cfg : Config.

Definition getTokenExpiry (token : string) : option Z :=
  let parts := JsString.split "."%char token in
  if negb (Nat.eqb (List.length parts) 3) then None
  else
    let payloadB64 := nth 1 parts EmptyString in
    let padding :=
      JsString.repeat "="%char ((4 - String.length payloadB64 mod 4) mod 4)%nat in
    match decodePayload (payloadB64 ++ padding) with
    | None => None
    | Some payload =>
        match Js.prop "exp" payload with
        | Js.Value (JNum exp) => if exp =? 0 then None else Some (exp * 1000)
        | _ => None
        end
    end.

(** A number is truthy when it is not zero; [null] is falsy. *)
Definition truthy_expiry (tokenExpiry : option Z) : option Z :=
  match tokenExpiry with
  | Some e => if e =? 0 then None else Some e
  | None => None
  end.

Definition userinfoUrl (domain : string) : string :=
  "https://" ++ domain ++ "/userinfo".

Definition verifyOAuthToken (env : Env) (token : string) (w : World)
  : option Json * World :=
  match domain_of cfg with
  | None => (None, w)
  | Some domain =>
      let tokenHash := hashToken token in
      let tokenExpiry := getTokenExpiry token in
      let expired :=
        match truthy_expiry tokenExpiry with
        | Some e => e <=? now env
        | None => false
        end in
      if expired then (None, with_cache (JsMap.delete tokenHash (tokenCache w)) w)
      else
        match cache_lookup (now env) tokenHash (tokenCache w) with
        | (Some cachedInfo, _) => (Some cachedInfo, w)
        | (None, c1) =>
            let auth := "Bearer " ++ token in
            let w1 := with_call (userinfoUrl domain) auth (with_cache c1 w) in
            match fetch env (userinfoUrl domain) auth with
            | FetchRejected => (None, w1)
            | FetchResponse false _ _ => (None, w1)
            | FetchResponse true _ None => (None, w1)
            | FetchResponse true _ (Some info) =>
                if user_label_throws info then (None, w1)
                else
                  let cacheExpiry := now env + TOKEN_CACHE_TTL cfg in
                  let exp :=
                    match truthy_expiry tokenExpiry with
                    | Some e => Z.min cacheExpiry e
                    | None => cacheExpiry
                    end in
                  let entry := {| userInfo := info; expiry := exp |} in
                  match cache_insert (TOKEN_CACHE_MAX_SIZE cfg) tokenHash entry c1 with
                  | (c2, true) => (None, with_cache c2 w1)
                  | (c2, false) => (Some info, with_cache c2 w1)
                  end
            end
        end
  end.

(* ---------------------------------------------------------------- *)
(** ** Auth middleware *)

Record Request : Type := {
  method : string;
  path : string;
  authorization : option string;               (* req.headers.authorization *)
  mcp_session_id : option string;              (* req.headers['mcp-session-id'] *)
  body : Json
}.

Inductive GateOutcome : Type :=
| Next
| Respond (status : Z) (headers : list (string * string)) (text : string).

Definition resource_metadata : string :=
  "resource_metadata=" ++ JsString.dquote ++ MCP_SERVER_URL cfg
    ++ "/.well-known/oauth-protected-resource" ++ JsString.dquote.

Definition realm : string :=
  "Bearer realm=" ++ JsString.dquote ++ MCP_SERVER_URL cfg ++ JsString.dquote.

Definition challenge_no_token : string := realm ++ ", " ++ resource_metadata.

Definition challenge_invalid_token : string :=
  realm ++ ", error=" ++ JsString.dquote ++ "invalid_token" ++ JsString.dquote
    ++ ", " ++ resource_metadata.

Definition is_exempt (req : Request) : bool :=
  (String.eqb (path req) "/health"
   || JsString.startsWith (path req) "/.well-known/"
   || String.eqb (method req) "OPTIONS")%bool.

(** [(req.headers.authorization || '').replace('Bearer ', '').trim()]. *)
Definition bearer_token (req : Request) : string :=
  let authHeader := header_text (authorization req) in
  JsString.trim (JsString.remove_first "Bearer " authHeader).

Definition authMiddleware (env : Env) (req : Request) (w : World)
  : GateOutcome * World :=
  if is_exempt req then (Next, w)
  else if JsString.startsWith (path req) "/mcp" then
    match domain_of cfg with
    | None => (Respond 500 [] "Server misconfigured", w)
    | Some _ =>
        let token := bearer_token req in
        if negb (JsString.truthy token) then
          (Respond 401 [("WWW-Authenticate", challenge_no_token)]
                   "Unauthorized - No token", w)
        else
          match verifyOAuthToken env token w with
          | (Some info, w') =>
              if Js.truthy info then (Next, w')
              else (Respond 401 [("WWW-Authenticate", challenge_invalid_token)]
                            "Unauthorized", w')
          | (None, w') =>
              (Respond 401 [("WWW-Authenticate", challenge_invalid_token)]
                       "Unauthorized", w')
          end
    end
  else (Next, w).

End Validator.

(* ================================================================== *)
(** ** Session registry and the [/mcp] routes *)

(** A transport handle of the protocol library. *)
Definition Transport := nat.

(** [transports]: session id to transport. *)
Definition Registry := JsMap.t Transport.

Record JsonRpcError : Type := {
  jsonrpc : string;
  code : Z;
  message : string;
  id : option Z                                   (* None is [null] *)
}.

Inductive Payload : Type :=
| Text (s : string)
| Envelope (e : JsonRpcError).

(** How a call into the protocol library ends. *)
Inductive TransportRun : Type :=
| Served                                          (* it wrote the response *)
| Threw (headersSent : bool).

Inductive McpOutcome : Type :=
| ByTransport (t : Transport)                     (* the session's transport answered *)
| ByNewTransport                                  (* a fresh transport was connected and answered *)
| Reply (status : Z) (payload : Payload)
| Unanswered.                                     (* fault after the headers were flushed *)

Definition bad_session : McpOutcome :=
  Reply 400 (Envelope {| jsonrpc := "2.0"; code := -32000;
                         message := "Bad Request: No valid session ID provided";
                         id := None |}).

Definition internal_error : McpOutcome :=
  Reply 500 (Envelope {| jsonrpc := "2.0"; code := -32603;
                         message := "Internal server error";
                         id := None |}).

Section Sessions.

(** [isInitializeRequest] of the protocol library. *)
Variable isInitializeRequest : Json -> bool.

(** [transport.handleRequest] (and [server.connect] for a fresh
    transport); [None] stands for the transport created by the request. *)
Variable run : option Transport -> TransportRun.

(** [app.post('/mcp')]. *)
Definition post_mcp (req : Request) (reg : Registry) : McpOutcome :=
  let sessionId := mcp_session_id req in
  if (header_truthy sessionId && JsMap.has (header_text sessionId) reg)%bool then
    match JsMap.get (header_text sessionId) reg with
    | Some transport =>
        match run (Some transport) with
        | Served => ByTransport transport
        | Threw false => internal_error
        | Threw true => Unanswered
        end
    | None => internal_error
    end
  else if (negb (header_truthy sessionId) && isInitializeRequest (body req))%bool then
    match run None with
    | Served => ByNewTransport
    | Threw false => internal_error
    | Threw true => Unanswered
    end
  else bad_session.

(** [app.get('/mcp')]. *)
Definition get_mcp (req : Request) (reg : Registry) : McpOutcome :=
  let sessionId := mcp_session_id req in
  if (negb (header_truthy sessionId) || negb (JsMap.has (header_text sessionId) reg))%bool then
    Reply 400 (Text "Invalid or missing session ID")
  else
    match JsMap.get (header_text sessionId) reg with
    | Some transport => ByTransport transport
    | None => Unanswered
    end.

(** [app.delete('/mcp')]. *)
Definition delete_mcp (req : Request) (reg : Registry) : McpOutcome :=
  let sessionId := mcp_session_id req in
  if (negb (header_truthy sessionId) || negb (JsMap.has (header_text sessionId) reg))%bool then
    Reply 400 (Text "Invalid or missing session ID")
  else
    match JsMap.get (header_text sessionId) reg with
    | Some transport =>
        match run (Some transport) with
        | Served => ByTransport transport
        | Threw false => Reply 500 (Text "Error processing session termination")
        | Threw true => Unanswered
        end
    | None => Reply 500 (Text "Error processing session termination")
    end.

End Sessions.

(** [onsessioninitialized]: the library reports the id it generated. *)
Definition onsessioninitialized (sessionId : string) (transport : Transport)
                                (reg : Registry) : Registry :=
  JsMap.set sessionId transport reg.

(** [transport.onclose], with [sid] the transport's own session id. *)
Definition onclose (sid : option string) (reg : Registry) : Registry :=
  if (header_truthy sid && JsMap.has (header_text sid) reg)%bool
  then JsMap.delete (header_text sid) reg
  else reg.

(* ================================================================== *)
(** ** Vocabulary of the properties *)

(** Order of the eviction sort. *)
Definition le_expiry (a b : string * CacheEntry) : Prop :=
  expiry (snd a) <= expiry (snd b).

(** Deleting a list of keys, one after the other. *)
Definition delete_keys (ks : list string) (c : TokenCache) : TokenCache :=
  fold_left (fun acc k => JsMap.delete k acc) ks c.

(** What holds of the cache in every state the process can reach: its
    keys are distinct, and it is empty as long as no identity-provider
    domain is configured (nothing is ever validated then). *)
Definition world_inv (cfg : Config) (w : World) : Prop :=
  JsMap.wf (tokenCache w) /\ (domain_of cfg = None -> tokenCache w = []).

(** Empty or made of white space only. *)
Definition all_space (s : string) : bool :=
  forallb JsString.is_space (list_ascii_of_string s).

Definition is_lower_hex_char (c : ascii) : bool :=
  let n := nat_of_ascii c in
  ((Nat.leb 48 n && Nat.leb n 57) || (Nat.leb 97 n && Nat.leb n 102))%bool.

Definition is_lower_hex (s : string) : bool :=
  forallb is_lower_hex_char (list_ascii_of_string s).

(** [pat] occurs in [s] at offset [i]. *)
Definition occurs_at (pat s : string) (i : nat) : bool :=
  String.prefix pat (JsString.drop i s).

(** A provider outcome that is not a success: a rejected promise, a
    response whose status is not 2xx, or a body that is not JSON. *)
Definition provider_failed (o : FetchOutcome) : bool :=
  match o with
  | FetchRejected => true
  | FetchResponse false _ _ => true
  | FetchResponse true _ None => true
  | FetchResponse true _ (Some _) => false
  end.

(** A sequence of validations, each with its own clock and provider. *)
Fixpoint verify_all (decodePayload : string -> option Json) (cfg : Config)
                    (calls : list (Env * string)) (w : World) : World :=
  match calls with
  | [] => w
  | (env, token) :: rest =>
      verify_all decodePayload cfg rest
                 (snd (verifyOAuthToken decodePayload cfg env token w))
  end.

(* ================================================================== *)
(** ** Health probe and discovery documents *)

Module Health.

Record TokenCacheStats : Type := {
  size : Z;
  active : Z;
  ttl_seconds : Z;
  max_size : Z
}.

Record Report : Type := {
  status : string;
  transport : string;
  token_cache : TokenCacheStats
}.

(** [Array.from(_tokenCache.values()).filter(v => now < v.expiry).length]. *)
Definition activeTokens (t : Z) (c : TokenCache) : nat :=
  List.length (filter (fun v => t <? expiry v) (map snd c)).

(** [app.get('/health')]. The TTL is a whole number of seconds times
    1000, so the quotient is exact. *)
Definition get_health (cfg : Config) (t : Z) (c : TokenCache) : Report :=
  {| status := "ok";
     transport := "streamable-http";
     token_cache :=
       {| size := Z.of_nat (JsMap.size c);
          active := Z.of_nat (activeTokens t c);
          ttl_seconds := TOKEN_CACHE_TTL cfg / 1000;
          max_size := TOKEN_CACHE_MAX_SIZE cfg |} |}.

End Health.

Module Discovery.

Inductive Reply : Type :=
| SendText (status : Z) (text : string)
| SendJson (doc : Json).                          (* res.json: status 200 *)

Definition not_configured : Reply :=
  SendText 501 "OAuth not configured on this server".

Definition scopes : Json :=
  JArr [JStr "openid"; JStr "profile"; JStr "email"; JStr "offline_access"].

(** [app.get('/.well-known/mcp-oauth')]; [clientId] is [AUTH0_CLIENT_ID]. *)
Definition mcp_oauth (cfg : Config) (clientId : option string) : Reply :=
  match domain_of cfg with
  | None => not_configured
  | Some domain =>
      if negb (header_truthy clientId) then not_configured
      else SendJson (JObj
        [("authorizationEndpoint", JStr ("https://" ++ domain ++ "/authorize"));
         ("tokenEndpoint", JStr ("https://" ++ domain ++ "/oauth/token"));
         ("clientId", JStr (header_text clientId));
         ("scopes", scopes)])
  end.

(** [/.well-known/oauth-authorization-server] and its [/mcp] twin (RFC 8414). *)
Definition authorization_server (cfg : Config) : Reply :=
  match domain_of cfg with
  | None => not_configured
  | Some domain =>
      SendJson (JObj
        [("issuer", JStr ("https://" ++ domain ++ "/"));
         ("authorization_endpoint", JStr ("https://" ++ domain ++ "/authorize"));
         ("token_endpoint", JStr ("https://" ++ domain ++ "/oauth/token"));
         ("scopes_supported", scopes);
         ("response_types_supported", JArr [JStr "code"])])
  end.

(** [/.well-known/oauth-protected-resource] and its [/mcp] twin (RFC 9728). *)
Definition protected_resource (cfg : Config) : Reply :=
  match domain_of cfg with
  | None => not_configured
  | Some domain =>
      SendJson (JObj
        [("resource", JStr (MCP_SERVER_URL cfg));
         ("scopes_supported", scopes);
         ("authorization_servers", JArr [JStr ("https://" ++ domain ++ "/")])])
  end.

(** The GET routes registered ahead of the auth middleware. *)
Definition routes (cfg : Config) (clientId : option string) : list (string * Reply) :=
  [("/.well-known/mcp-oauth", mcp_oauth cfg clientId);
   ("/.well-known/oauth-authorization-server", authorization_server cfg);
   ("/.well-known/oauth-authorization-server/mcp", authorization_server cfg);
   ("/.well-known/oauth-protected-resource", protected_resource cfg);
   ("/.well-known/oauth-protected-resource/mcp", protected_resource cfg)].

End Discovery.

(* ================================================================== *)
(** ** Shutdown *)

(** How [transport.close()] ends: whether it threw, and whether the
    transport's close callback ran on the way. *)
Record CloseRun : Type := { closeThrew : bool; oncloseRan : bool }.

(** The SIGINT loop over [transports.entries()]: close, then delete;
    a throwing close is logged and its entry is not deleted by the loop.
    The result lists the transports on which close was called. *)
Fixpoint shutdown_loop (close : Transport -> CloseRun)
                       (pending : list (string * Transport)) (reg : Registry)
  : list Transport * Registry :=
  match pending with
  | [] => ([], reg)
  | (sessionId, transport) :: rest =>
      let run := close transport in
      let reg1 := if oncloseRan run then onclose (Some sessionId) reg else reg in
      let reg2 := if closeThrew run then reg1 else JsMap.delete sessionId reg1 in
      let (closed, reg') := shutdown_loop close rest reg2 in
      (transport :: closed, reg')
  end.

Definition shutdown (close : Transport -> CloseRun) (reg : Registry)
  : list Transport * Registry :=
  shutdown_loop close reg reg.

(* ================================================================== *)
(** ** GraphQL requests: what [executeWithTimeout] does with a failure *)

Module Graphql.

(** One element of [response.errors]. *)
Record GqlError : Type := {
  err_message : option string;                     (* err.message *)
  err_code : option string                         (* err.extensions?.code *)
}.

Inductive RequestError : Type :=
| ClientError (errors : option (list GqlError)) (status : Z)
| OtherError (text : string).                      (* the timeout included *)

(** What [Promise.race([requestPromise, timeoutPromise])] settles to. *)
Inductive Settled (T : Type) : Type :=
| Fulfilled (result : T)
| Rejected (error : RequestError).
Arguments Fulfilled {T} result.
Arguments Rejected {T} error.

Inductive Thrown : Type :=
| NewError (text : string)                         (* throw new Error(text) *)
| Rethrown (error : RequestError).                 (* throw error *)

(** [String.prototype.includes]. *)
Fixpoint includes (s sub : string) : bool :=
  if String.prefix sub s then true
  else match s with
       | EmptyString => false
       | String _ s' => includes s' sub
       end.

(** [err.message?.includes(word)]: [undefined] when there is no message. *)
Definition message_includes (e : GqlError) (word : string) : bool :=
  match err_message e with
  | Some m => includes m word
  | None => false
  end.

Definition is_permission_error (e : GqlError) : bool :=
  (message_includes e "access"
   || message_includes e "permission"
   || message_includes e "scope"
   || match err_code e with
      | Some c => String.eqb c "ACCESS_DENIED"
      | None => false
      end)%bool.

(** [errors.map(e => e.message).join(", ")]: a missing message joins as
    the empty string. *)
Definition joined_messages (errors : list GqlError) : string :=
  String.concat ", " (map (fun e => header_text (err_message e)) errors).

Definition permission_denied (errors : list GqlError) : string :=
  "Permission denied: Your Shopify app may be missing required API scopes. "
  ++ "Error: " ++ joined_messages errors ++ ". "
  ++ "Please check your app's API scopes in Shopify Admin Settings > Apps and sales channels > [Your App] > Configuration.".

Definition graphql_error (errors : list GqlError) : string :=
  "GraphQL error: " ++ joined_messages errors.

(** [executeWithTimeout], from the settled race on. *)
Definition executeWithTimeout {T : Type} (settled : Settled T) : T + Thrown :=
  match settled with
  | Fulfilled result => inl result
  | Rejected (ClientError response_errors _) =>
      let errors := match response_errors with Some es => es | None => [] end in
      if existsb is_permission_error errors
      then inr (NewError (permission_denied errors))
      else inr (NewError (graphql_error errors))
  | Rejected error => inr (Rethrown error)
  end.

End Graphql.

(* ================================================================== *)
(** ** Further vocabulary *)

(** Number of occurrences of a character. *)
Fixpoint count_char (c : ascii) (s : string) : nat :=
  match s with
  | EmptyString => O
  | String c' s' => if Ascii.eqb c' c then S (count_char c s') else count_char c s'
  end.

Fixpoint last_char (s : string) : option ascii :=
  match s with
  | EmptyString => None
  | String c EmptyString => Some c
  | String _ s' => last_char s'
  end.

Definition first_char (s : string) : option ascii :=
  match s with
  | EmptyString => None
  | String c _ => Some c
  end.

(** No white space at either end. *)
Definition clean_ends (s : string) : bool :=
  match first_char s, last_char s with
  | Some a, Some b => (negb (JsString.is_space a) && negb (JsString.is_space b))%bool
  | _, _ => true
  end.

(** Would the validator's cache read hit on key [k] at time [t]? *)
Definition is_hit (t : Z) (c : TokenCache) (k : string) : bool :=
  match fst (cache_lookup t k c) with Some _ => true | None => false end.

(** A live entry for key [k] at time [t], holding [info]. *)
Definition live_entry (t : Z) (k : string) (c : TokenCache) (info : Json) : Prop :=
  exists E, JsMap.get k c = Some {| userInfo := info; expiry := E |} /\ t < E.

(** The token carries no expiry that has passed at time [t]. *)
Definition not_expired_locally (decodePayload : string -> option Json)
                               (t : Z) (token : string) : Prop :=
  forall e, getTokenExpiry decodePayload token = Some e -> t < e.

(** The identity provider answers the token with a success status and a
    JSON body that the validator can log, so that it keeps it. *)
Definition provider_vouches (env : Env) (domain token : string) (info : Json) : Prop :=
  (exists st, fetch env (userinfoUrl domain) ("Bearer " ++ token)
              = FetchResponse true st (Some info))
  /\ user_label_throws info = false.

(** Every stored claims value is one the validator could log. *)
Definition loggable_cache (c : TokenCache) : Prop :=
  forall k e, In (k, e) c -> user_label_throws (userInfo e) = false.

(** The identity provider answers the token with a success status and a
    JSON body other than [null]. *)
Definition provider_accepts (env : Env) (domain token : string) (info : Json) : Prop :=
  (exists st, fetch env (userinfoUrl domain) ("Bearer " ++ token)
              = FetchResponse true st (Some info))
  /\ info <> JNull.

(* ================================================================== *)
(** ** Sample data used by the examples *)

Module Sample.

Definition cfg : Config :=
  {| AUTH0_DOMAIN := Some "idp.example";
     MCP_SERVER_URL := "https://gw.example";
     TOKEN_CACHE_TTL := 120000;
     TOKEN_CACHE_MAX_SIZE := 2 |}.

Definition unconfigured : Config :=
  {| AUTH0_DOMAIN := None;
     MCP_SERVER_URL := "https://gw.example";
     TOKEN_CACHE_TTL := 120000;
     TOKEN_CACHE_MAX_SIZE := 2 |}.

Definition alice : Json :=
  JObj [("sub", JStr "auth0|alice"); ("email", JStr "alice@example.com")].

Definition bob : Json := JObj [("sub", JStr "auth0|bob")].

(** A provider that accepts every token, and one that rejects every token. *)
Definition accepting (t : Z) : Env :=
  {| now := t; fetch := fun _ _ => FetchResponse true 200 (Some alice) |}.

Definition rejecting (t : Z) : Env :=
  {| now := t; fetch := fun _ _ => FetchResponse false 401 None |}.

(** A decoder that knows one payload, with [exp = 1] (second). *)
Definition decoder (s : string) : option Json :=
  if String.eqb s "p===" then Some (JObj [("exp", JNum 1)]) else None.

Definition entry (info : Json) (e : Z) : CacheEntry :=
  {| userInfo := info; expiry := e |}.

Definition request (m p : string) (auth sid : option string) (b : Json) : Request :=
  {| method := m; path := p; authorization := auth;
     mcp_session_id := sid; body := b |}.

Definition initialize : Json := JObj [("method", JStr "initialize")].

Definition isInitialize (b : Json) : bool :=
  match Js.prop "method" b with
  | Js.Value (JStr m) => String.eqb m "initialize"
  | _ => false
  end.

Definition serving (_ : option Transport) : TransportRun := Served.

End Sample.

(* ================================================================== *)
(** * Properties *)

(** ** Test vectors of the digest *)

Example sha256_constants :
  firstn 4 Sha256.K = [0x428a2f98; 0x71374491; 0xb5c0fbcf; 0xe9b5dba5]
  /\ skipn 62 Sha256.K = [0xbef9a3f7; 0xc67178f2]
  /\ Sha256.sa Sha256.H0 = 0x6a09e667
  /\ Sha256.sh Sha256.H0 = 0x5be0cd19.
Proof. vm_compute. repeat split. Qed.

Example sha256_abc :
  Sha256.sha256_hex "abc"
  = "ba7816bf8f01cfea414140de5dae2223b00361a396177a9cb410ff61f20015ad".
Proof. vm_compute. reflexivity. Qed.

Example sha256_empty :
  Sha256.sha256_hex ""
  = "e3b0c44298fc1c149afbf4c8996fb92427ae41e4649b934ca495991b7852b855".
Proof. vm_compute. reflexivity. Qed.

Example sha256_two_blocks :
  Sha256.sha256_hex "abcdbcdecdefdefgefghfghighijhijkijkljklmklmnlmnomnopnopq"
  = "248d6a61d20638b8e5c026930c3e6039a33ce45964ff2167f6ecedd419db06c1".
Proof. vm_compute. reflexivity. Qed.

(** ** Facts about [Map] *)

Module JsMapFacts.
Import JsMap.
Section Facts.
Context {V : Type}.
Implicit Types (m : JsMap.t V) (k : string) (v : V).

Lemma get_In m k v : get k m = Some v -> In (k, v) m.
Proof.
  induction m as [|[k' v'] m IH]; simpl; [discriminate|].
  destruct (String.eqb_spec k k') as [->|Hne].
  - intros [= ->]. now left.
  - intros H. right. auto.
Qed.

Lemma In_keys m k v : In (k, v) m -> In k (keys m).
Proof. intros H. apply (in_map fst) in H. exact H. Qed.

Lemma get_None_keys m k : get k m = None <-> ~ In k (keys m).
Proof.
  induction m as [|[k' v'] m IH]; simpl.
  - tauto.
  - destruct (String.eqb_spec k k') as [->|Hne].
    + split; [discriminate | intros H; exfalso; apply H; now left].
    + rewrite IH. split; intros H; [intros [E|I]; [congruence|auto] | auto].
Qed.

Lemma In_get m k v : wf m -> In (k, v) m -> get k m = Some v.
Proof.
  unfold wf. induction m as [|[k' v'] m IH]; simpl; [tauto|].
  intros Hnd [E|I]; inversion Hnd as [|? ? Hnotin Hnd']; subst.
  - inversion E; subst. now rewrite String.eqb_refl.
  - destruct (String.eqb_spec k k') as [->|Hne]; [|auto].
    exfalso. apply Hnotin. eapply In_keys; eauto.
Qed.

Lemma has_keys m k : has k m = true <-> In k (keys m).
Proof.
  unfold has. destruct (get k m) eqn:E.
  - split; [intros _|reflexivity]. eapply In_keys, get_In; eauto.
  - apply get_None_keys in E. split; [discriminate | tauto].
Qed.

Lemma delete_absent m k : ~ In k (keys m) -> delete k m = m.
Proof.
  induction m as [|[k' v'] m IH]; simpl; [reflexivity|].
  intros H. destruct (String.eqb_spec k k') as [->|Hne].
  - exfalso. apply H. now left.
  - f_equal. apply IH. tauto.
Qed.

Lemma In_delete m k x : In x (delete k m) -> In x m.
Proof.
  induction m as [|[k' v'] m IH]; simpl; [tauto|].
  destruct (String.eqb k k'); simpl; intuition.
Qed.

Lemma keys_delete m k x : In x (keys (delete k m)) -> In x (keys m).
Proof.
  unfold keys. rewrite !in_map_iff. intros [y [E I]].
  exists y. split; [exact E | eapply In_delete; eauto].
Qed.

Lemma wf_delete m k : wf m -> wf (delete k m).
Proof.
  unfold wf. induction m as [|[k' v'] m IH]; simpl; [auto|].
  intros Hnd. inversion Hnd as [|? ? Hnotin Hnd']; subst.
  destruct (String.eqb k k'); [assumption|].
  simpl. constructor; [|auto].
  intros H. apply Hnotin. eapply keys_delete; eauto.
Qed.

Lemma In_delete_iff m k k' v :
  wf m -> In (k', v) (delete k m) <-> In (k', v) m /\ k' <> k.
Proof.
  unfold wf. induction m as [|[k0 v0] m IH]; simpl; [tauto|].
  intros Hnd. inversion Hnd as [|? ? Hnotin Hnd']; subst.
  destruct (String.eqb_spec k k0) as [->|Hne].
  - split.
    + intros I. split; [now right|].
      intros ->. apply Hnotin. eapply In_keys; eauto.
    + intros [[E|I] Hk]; [congruence | exact I].
  - simpl. rewrite (IH Hnd'). split.
    + intros [E|[I Hk]]; [inversion E; subst; split; [now left | congruence] | tauto].
    + intros [[E|I] Hk]; [now left | right; tauto].
Qed.

Lemma get_delete_same m k : wf m -> get k (delete k m) = None.
Proof.
  intros Hwf. apply get_None_keys. intros H.
  unfold keys in H. apply in_map_iff in H. destruct H as [[k' v] [E I]].
  simpl in E. subst k'. apply (In_delete_iff m k k v Hwf) in I. tauto.
Qed.

Lemma get_delete_other m k k' : k' <> k -> get k' (delete k m) = get k' m.
Proof.
  intros Hne. induction m as [|[k0 v0] m IH]; simpl; [reflexivity|].
  destruct (String.eqb_spec k k0) as [->|Hk]; simpl.
  - destruct (String.eqb_spec k' k0); [congruence | reflexivity].
  - now rewrite IH.
Qed.

Lemma size_delete m k : In k (keys m) -> S (size (delete k m)) = size m.
Proof.
  unfold size. induction m as [|[k0 v0] m IH]; simpl; [tauto|].
  intros H. destruct (String.eqb_spec k k0) as [->|Hk]; [reflexivity|].
  simpl. f_equal. apply IH. destruct H; [congruence | assumption].
Qed.

Lemma keys_set m k v x : In x (keys (set k v m)) <-> x = k \/ In x (keys m).
Proof.
  induction m as [|[k0 v0] m IH]; simpl.
  - intuition.
  - destruct (String.eqb_spec k k0) as [->|Hk]; simpl.
    + intuition.
    + rewrite IH. intuition.
Qed.

Lemma wf_set m k v : wf m -> wf (set k v m).
Proof.
  unfold wf. induction m as [|[k0 v0] m IH]; simpl.
  - intros _. constructor; [simpl; tauto | constructor].
  - intros Hnd. inversion Hnd as [|? ? Hnotin Hnd']; subst.
    destruct (String.eqb_spec k k0) as [->|Hk]; simpl.
    + constructor; assumption.
    + constructor; [|auto].
      intros H. apply keys_set in H. destruct H; [congruence | auto].
Qed.

Lemma get_set_same m k v : get k (set k v m) = Some v.
Proof.
  induction m as [|[k0 v0] m IH]; simpl.
  - now rewrite String.eqb_refl.
  - destruct (String.eqb_spec k k0) as [->|Hk]; simpl.
    + now rewrite String.eqb_refl.
    + destruct (String.eqb_spec k k0); [congruence | exact IH].
Qed.

Lemma In_set m k v k' v' :
  In (k', v') (set k v m) -> (k' = k /\ v' = v) \/ In (k', v') m.
Proof.
  induction m as [|[k0 v0] m IH]; simpl.
  - intros [E|[]]. inversion E. auto.
  - destruct (String.eqb_spec k k0) as [->|Hk]; simpl.
    + intros [E|I]; [inversion E; auto | auto].
    + intros [E|I]; [auto | destruct (IH I); auto].
Qed.

Lemma size_set_new m k v : ~ In k (keys m) -> size (set k v m) = S (size m).
Proof.
  unfold size. induction m as [|[k0 v0] m IH]; simpl; [reflexivity|].
  intros H. destruct (String.eqb_spec k k0) as [->|Hk]; [tauto|].
  simpl. f_equal. apply IH. tauto.
Qed.

End Facts.
End JsMapFacts.

(** ** Facts about the sort and the eviction loop *)

Lemma insert_by_expiry_perm x l : Permutation (insert_by_expiry x l) (x :: l).
Proof.
  induction l as [|y l IH]; simpl; [reflexivity|].
  destruct (expiry (snd x) <=? expiry (snd y)); [reflexivity|].
  rewrite IH. apply perm_swap.
Qed.

Lemma sort_by_expiry_perm l : Permutation (sort_by_expiry l) l.
Proof.
  induction l as [|x l IH]; simpl; [reflexivity|].
  rewrite insert_by_expiry_perm. now constructor.
Qed.

Lemma insert_by_expiry_sorted x l :
  StronglySorted le_expiry l -> StronglySorted le_expiry (insert_by_expiry x l).
Proof.
  induction 1 as [|y l Hs IH Hall]; simpl.
  - constructor; constructor.
  - destruct (Z.leb_spec (expiry (snd x)) (expiry (snd y))) as [Hle|Hgt].
    + constructor; [constructor; assumption|].
      constructor; [exact Hle|].
      eapply Forall_impl; [|exact Hall].
      intros z Hz. unfold le_expiry in *. lia.
    + constructor; [exact IH|].
      rewrite Forall_forall. intros z Hz.
      apply (Permutation_in _ (insert_by_expiry_perm x l)) in Hz.
      destruct Hz as [<-|Hz].
      * unfold le_expiry. lia.
      * rewrite Forall_forall in Hall. auto.
Qed.

Lemma sort_by_expiry_sorted l : StronglySorted le_expiry (sort_by_expiry l).
Proof.
  induction l as [|x l IH]; simpl; [constructor|].
  now apply insert_by_expiry_sorted.
Qed.

Lemma In_firstn {A} (l : list A) n x : In x (firstn n l) -> In x l.
Proof.
  intros H. rewrite <- (firstn_skipn n l). apply in_or_app. now left.
Qed.

Lemma In_skipn {A} (l : list A) n x : In x (skipn n l) -> In x l.
Proof.
  intros H. rewrite <- (firstn_skipn n l). apply in_or_app. now right.
Qed.

(** In a sorted list, everything in a prefix is below everything after it. *)
Lemma sorted_prefix_le l n a b :
  StronglySorted le_expiry l ->
  In a (firstn n l) -> In b (skipn n l) -> le_expiry a b.
Proof.
  intros Hs. revert n. induction Hs as [|x l Hs IH Hall]; intros n Ha Hb.
  - destruct n; simpl in Ha; contradiction.
  - destruct n as [|n]; simpl in *; [contradiction|].
    destruct Ha as [<-|Ha].
    + rewrite Forall_forall in Hall. apply Hall.
      eapply (In_skipn l n b). exact Hb.
    + eauto.
Qed.

Lemma evict_loop_spec sorted r : forall i c,
  (i + r <= List.length sorted)%nat ->
  evict_loop sorted i r c
  = (delete_keys (map fst (firstn r (skipn i sorted))) c, false).
Proof.
  induction r as [|r IH]; intros i c Hlen; simpl.
  - reflexivity.
  - destruct (nth_error sorted i) as [[k e]|] eqn:E.
    + rewrite IH by lia.
      assert (Hs : skipn i sorted = (k, e) :: skipn (S i) sorted).
      { clear -E. revert i E. induction sorted as [|y l IHl]; intros [|i] E;
          simpl in *; try discriminate.
        - now inversion E.
        - apply IHl in E. exact E. }
      rewrite Hs. reflexivity.
    + apply nth_error_None in E. lia.
Qed.

Lemma wf_delete_keys ks : forall c, JsMap.wf c -> JsMap.wf (delete_keys ks c).
Proof.
  induction ks as [|k ks IH]; intros c Hwf; simpl; [exact Hwf|].
  apply IH. now apply JsMapFacts.wf_delete.
Qed.

Lemma In_delete_keys ks : forall (c : TokenCache) k v,
  JsMap.wf c ->
  In (k, v) (delete_keys ks c) <-> In (k, v) c /\ ~ In k ks.
Proof.
  induction ks as [|k0 ks IH]; intros c k v Hwf; simpl.
  - tauto.
  - rewrite IH by now apply JsMapFacts.wf_delete.
    rewrite JsMapFacts.In_delete_iff by exact Hwf.
    split; [intros [[I Hne] Hn] | intros [I Hn]]; intuition congruence.
Qed.

Lemma keys_delete_other (c : TokenCache) k x :
  In x (JsMap.keys c) -> x <> k -> In x (JsMap.keys (JsMap.delete k c)).
Proof.
  induction c as [|[k0 v0] c IH]; simpl; [tauto|].
  intros [E|I] Hne.
  - subst. destruct (String.eqb_spec k x); [congruence | now left].
  - destruct (String.eqb_spec k k0); [exact I | right; auto].
Qed.

Lemma size_delete_keys ks : forall c : TokenCache,
  NoDup ks -> incl ks (JsMap.keys c) ->
  (JsMap.size (delete_keys ks c) + List.length ks = JsMap.size c)%nat.
Proof.
  induction ks as [|k ks IH]; intros c Hnd Hincl; simpl.
  - lia.
  - inversion Hnd as [|? ? Hnotin Hnd']; subst.
    assert (Hk : In k (JsMap.keys c)) by (apply Hincl; now left).
    pose proof (JsMapFacts.size_delete c k Hk) as Hsz.
    rewrite <- Hsz, <- (IH (JsMap.delete k c) Hnd'); [lia|].
    intros x Hx. apply keys_delete_other.
    + apply Hincl. now right.
    + intros ->. contradiction.
Qed.

Lemma NoDup_firstn {A} (l : list A) n : NoDup l -> NoDup (firstn n l).
Proof.
  intros H. revert n. induction H as [|x l Hx Hnd IH]; intros [|n]; simpl;
    try constructor; auto.
  intros Hin. apply Hx. eapply (In_firstn l n x), Hin.
Qed.

(** What the size check does when the bound is not negative. *)
Lemma enforce_limit_spec (N : Z) (c : TokenCache) :
  0 <= N -> JsMap.wf c ->
  let n := Z.to_nat (Z.of_nat (JsMap.size c) - N) in
  let victims := firstn n (sort_by_expiry c) in
  enforce_limit N c = (delete_keys (map fst victims) c, false)
  /\ (n <= JsMap.size c)%nat
  /\ (JsMap.size (delete_keys (map fst victims) c) + n = JsMap.size c)%nat.
Proof.
  intros HN Hwf n victims.
  pose proof (sort_by_expiry_perm c) as Hperm.
  assert (Hlen : List.length (sort_by_expiry c) = JsMap.size c)
    by (apply Permutation_length, Hperm).
  assert (Hn : (n <= JsMap.size c)%nat) by (unfold n; lia).
  split; [|split; [exact Hn|]].
  - unfold enforce_limit.
    destruct (Z.gtb_spec (Z.of_nat (JsMap.size c)) N) as [Hgt|Hle].
    + rewrite evict_loop_spec by (simpl; fold n; lia). reflexivity.
    + assert (n = 0%nat) as Hz by (unfold n; lia).
      unfold victims. rewrite Hz. reflexivity.
  - assert (Hvl : List.length (map fst victims) = n).
    { unfold victims. rewrite length_map, length_firstn. lia. }
    enough (Hsz : (JsMap.size (delete_keys (map fst victims) c)
                   + List.length (map fst victims) = JsMap.size c)%nat)
      by (rewrite Hvl in Hsz; exact Hsz).
    apply size_delete_keys.
    + unfold victims. rewrite <- firstn_map. apply NoDup_firstn.
      eapply Permutation_NoDup; [|exact Hwf].
      symmetry. apply Permutation_map, Hperm.
    + intros x Hx. unfold victims in Hx. rewrite <- firstn_map in Hx.
      apply (In_firstn _ n x) in Hx.
      eapply Permutation_in; [apply Permutation_map, Hperm | exact Hx].
Qed.

(** ** Capacity bound of the cache *)

Ltac solve_wf :=
  unfold JsMap.wf; simpl; repeat constructor; simpl; intuition discriminate.

(** C1. With a maximum size [N >= 0], the insert of the validator ends
    without a fault and leaves at most [N] entries; what it leaves is part
    of the cache as it stood after [set]; every entry it removed expires no
    later than every entry it kept; and when [set] made the cache hold
    [N + 1] entries, exactly one entry is removed, one whose expiry is the
    smallest of the [N + 1] (the new entry included), leaving [N]. *)
Theorem cache_insert_capacity (N : Z) (k : string) (e : CacheEntry) (c : TokenCache) :
  0 <= N -> JsMap.wf c ->
  exists c2,
    cache_insert N k e c = (c2, false)
    /\ Z.of_nat (JsMap.size c2) <= N
    /\ (forall x, In x c2 -> In x (JsMap.set k e c))
    /\ (forall x y, In x (JsMap.set k e c) -> ~ In x c2 -> In y c2 ->
                    expiry (snd x) <= expiry (snd y))
    /\ (Z.of_nat (JsMap.size (JsMap.set k e c)) = N + 1 ->
        exists victim ve,
          In (victim, ve) (JsMap.set k e c)
          /\ (forall k' e', In (k', e') (JsMap.set k e c) -> expiry ve <= expiry e')
          /\ c2 = JsMap.delete victim (JsMap.set k e c)
          /\ Z.of_nat (JsMap.size c2) = N).
Proof.
  intros HN Hwf.
  set (c1 := JsMap.set k e c).
  assert (Hwf1 : JsMap.wf c1) by (apply JsMapFacts.wf_set, Hwf).
  destruct (enforce_limit_spec N c1 HN Hwf1) as [Heq [Hn Hsz]].
  set (n := Z.to_nat (Z.of_nat (JsMap.size c1) - N)) in *.
  set (sorted := sort_by_expiry c1) in *.
  pose proof (sort_by_expiry_perm c1) as Hperm. fold sorted in Hperm.
  pose proof (sort_by_expiry_sorted c1) as Hsorted. fold sorted in Hsorted.
  assert (Hkept : forall y, In y (delete_keys (map fst (firstn n sorted)) c1) ->
                            In y (skipn n sorted)).
  { intros [ky ey] Hy. apply In_delete_keys in Hy; [|exact Hwf1].
    destruct Hy as [Hy Hnot].
    apply (Permutation_in _ (Permutation_sym Hperm)) in Hy.
    rewrite <- (firstn_skipn n sorted) in Hy. apply in_app_or in Hy.
    destruct Hy as [Hy|Hy]; [|exact Hy].
    exfalso. apply Hnot. apply (in_map fst) in Hy. exact Hy. }
  assert (Hgone : forall x, In x c1 ->
                            ~ In x (delete_keys (map fst (firstn n sorted)) c1) ->
                            In x (firstn n sorted)).
  { intros [kx ex] Hx Hnot.
    destruct (in_dec string_dec kx (map fst (firstn n sorted))) as [Hin|Hout].
    - apply in_map_iff in Hin. destruct Hin as [[kx' ex'] [Ek Hin]].
      simpl in Ek. subst kx'.
      assert (Hc1 : In (kx, ex') c1).
      { apply (Permutation_in _ Hperm). eapply In_firstn, Hin. }
      pose proof (JsMapFacts.In_get _ _ _ Hwf1 Hx) as G1.
      pose proof (JsMapFacts.In_get _ _ _ Hwf1 Hc1) as G2.
      rewrite G1 in G2. inversion G2; subst. exact Hin.
    - exfalso. apply Hnot. apply In_delete_keys; [exact Hwf1 | tauto]. }
  exists (delete_keys (map fst (firstn n sorted)) c1).
  split; [exact Heq|]. split; [|split; [|split]].
  - unfold n in *. lia.
  - intros [kx ex] Hx. apply In_delete_keys in Hx; [tauto | exact Hwf1].
  - intros x y Hx Hnot Hy.
    apply (sorted_prefix_le sorted n); auto.
  - intros Hfull.
    assert (Hone : n = 1%nat) by (unfold n; lia).
    assert (Hlen : List.length sorted = JsMap.size c1)
      by (apply Permutation_length, Hperm).
    destruct sorted as [|[victim ve] rest] eqn:Es; [simpl in Hlen; lia|].
    exists victim, ve. rewrite Hone in *. simpl.
    split; [apply (Permutation_in _ Hperm); now left|].
    split; [|split; [reflexivity | simpl in Hsz; lia]].
    intros k' e' Hin.
    apply (Permutation_in _ (Permutation_sym Hperm)) in Hin.
    destruct Hin as [E|Hin]; [inversion E; lia|].
    inversion Hsorted as [|? ? _ Hall]; subst.
    rewrite Forall_forall in Hall. apply (Hall _ Hin).
Qed.

Lemma cache_insert_capacity_witness :
  let c := [("a", Sample.entry Sample.alice 50); ("b", Sample.entry Sample.bob 30)] in
  0 <= 2 /\ JsMap.wf c /\
  exists c2,
    cache_insert 2 "n" (Sample.entry Sample.alice 40) c = (c2, false)
    /\ Z.of_nat (JsMap.size c2) <= 2.
Proof.
  intros c.
  assert (H0 : 0 <= 2) by lia.
  assert (Hwf : JsMap.wf c) by solve_wf.
  split; [exact H0|]. split; [exact Hwf|].
  destruct (cache_insert_capacity 2 "n" (Sample.entry Sample.alice 40) c H0 Hwf)
    as [c2 [Heq [Hsz _]]].
  exists c2. split; assumption.
Defined.

(** The entry with the smallest expiry goes, not the oldest insert. *)
Example cache_insert_evicts_min_expiry :
  cache_insert 2 "n" (Sample.entry Sample.alice 40)
    [("a", Sample.entry Sample.alice 50); ("b", Sample.entry Sample.bob 30)]
  = ([("a", Sample.entry Sample.alice 50); ("n", Sample.entry Sample.alice 40)], false).
Proof. reflexivity. Qed.

(** The new entry itself goes when its expiry is the smallest. *)
Example cache_insert_evicts_new_entry :
  cache_insert 2 "n" (Sample.entry Sample.alice 10)
    [("a", Sample.entry Sample.alice 50); ("b", Sample.entry Sample.bob 30)]
  = ([("a", Sample.entry Sample.alice 50); ("b", Sample.entry Sample.bob 30)], false).
Proof. reflexivity. Qed.

(** A negative bound empties the cache and then faults on [sorted[i]]. *)
Example cache_insert_negative_bound :
  cache_insert (-1) "n" (Sample.entry Sample.alice 10) [] = ([], true).
Proof. reflexivity. Qed.

(** ** The cache read *)

(** C7. For a digest [D] stored with claims [C] and expiry [E], the read
    returns [C] and leaves the cache alone while [now < E]; from [E] on it is
    a miss that deletes the entry for [D] and nothing else; with no entry
    for [D] it is a miss that leaves the cache alone. *)
Theorem cache_lookup_correct (t : Z) (D : string) (c : TokenCache) :
  JsMap.wf c ->
  (forall C E, JsMap.get D c = Some {| userInfo := C; expiry := E |} ->
     (t < E -> cache_lookup t D c = (Some C, c))
     /\ (E <= t ->
         cache_lookup t D c = (None, JsMap.delete D c)
         /\ JsMap.get D (JsMap.delete D c) = None
         /\ forall D', D' <> D -> JsMap.get D' (JsMap.delete D c) = JsMap.get D' c))
  /\ (JsMap.get D c = None -> cache_lookup t D c = (None, c)).
Proof.
  intros Hwf. split.
  - intros C E Hget. unfold cache_lookup. rewrite Hget. simpl. split.
    + intros Hlt. destruct (Z.ltb_spec t E); [reflexivity | lia].
    + intros Hle. destruct (Z.ltb_spec t E); [lia|].
      split; [reflexivity|]. split.
      * now apply JsMapFacts.get_delete_same.
      * intros D' Hne. now apply JsMapFacts.get_delete_other.
  - intros Hnone. unfold cache_lookup. now rewrite Hnone.
Qed.

Lemma cache_lookup_correct_witness :
  let c := [("d1", Sample.entry Sample.alice 50); ("d2", Sample.entry Sample.bob 30)] in
  JsMap.wf c
  /\ cache_lookup 40 "d1" c = (Some Sample.alice, c)
  /\ cache_lookup 40 "d2" c = (None, [("d1", Sample.entry Sample.alice 50)])
  /\ cache_lookup 40 "d3" c = (None, c).
Proof.
  intros c.
  assert (Hwf : JsMap.wf c) by solve_wf.
  destruct (cache_lookup_correct 40 "d1" c Hwf) as [H1 _].
  destruct (cache_lookup_correct 40 "d2" c Hwf) as [H2 _].
  destruct (cache_lookup_correct 40 "d3" c Hwf) as [_ H3].
  split; [exact Hwf|]. split; [|split].
  - apply (H1 Sample.alice 50); [reflexivity | lia].
  - apply (H2 Sample.bob 30); [reflexivity | lia].
  - apply H3. reflexivity.
Defined.

(** ** The validator *)

Lemma getTokenExpiry_nonzero decode token e :
  getTokenExpiry decode token = Some e -> e <> 0.
Proof.
  unfold getTokenExpiry.
  destruct (negb _); [discriminate|].
  destruct (decode _) as [payload|]; [|discriminate].
  destruct (Js.prop "exp" payload) as [| |[]]; try discriminate.
  destruct (Z.eqb_spec n 0); [discriminate|].
  intros [= <-]. lia.
Qed.

Lemma truthy_expiry_Some e : e <> 0 -> truthy_expiry (Some e) = Some e.
Proof. intros H. simpl. destruct (Z.eqb_spec e 0); [contradiction | reflexivity]. Qed.

Lemma world_inv_initial cfg : world_inv cfg initial_world.
Proof. split; [constructor | reflexivity]. Qed.

Lemma wf_cache_lookup t k c : JsMap.wf c -> JsMap.wf (snd (cache_lookup t k c)).
Proof.
  intros Hwf. unfold cache_lookup.
  destruct (JsMap.get k c) as [cached|]; [|exact Hwf].
  destruct (t <? expiry cached); [exact Hwf | now apply JsMapFacts.wf_delete].
Qed.

Lemma wf_evict_loop sorted r : forall i c,
  JsMap.wf c -> JsMap.wf (fst (evict_loop sorted i r c)).
Proof.
  induction r as [|r IH]; intros i c Hwf; simpl; [exact Hwf|].
  destruct (nth_error sorted i) as [[k e]|]; [|exact Hwf].
  apply IH. now apply JsMapFacts.wf_delete.
Qed.

Lemma wf_cache_insert N k e c : JsMap.wf c -> JsMap.wf (fst (cache_insert N k e c)).
Proof.
  intros Hwf. unfold cache_insert, enforce_limit.
  destruct (_ >? N).
  - apply wf_evict_loop. now apply JsMapFacts.wf_set.
  - now apply JsMapFacts.wf_set.
Qed.

(** The invariant is kept by every validation. *)
Lemma verifyOAuthToken_inv decode cfg env token w :
  world_inv cfg w -> world_inv cfg (snd (verifyOAuthToken decode cfg env token w)).
Proof.
  intros [Hwf Hempty]. unfold verifyOAuthToken.
  destruct (domain_of cfg) as [d|] eqn:Hd;
    [|simpl; split; [assumption | intros Hn; apply Hempty; first [reflexivity | exact Hn]]].
  split; [|intros Hn; congruence].
  destruct (match truthy_expiry _ with Some e => e <=? now env | None => false end).
  - now apply JsMapFacts.wf_delete.
  - pose proof (wf_cache_lookup (now env) (hashToken token) (tokenCache w) Hwf) as Hl.
    destruct (cache_lookup _ _ _) as [[hit|] c1]; simpl in *; [exact Hwf|].
    destruct (fetch env _ _) as [|[] st [info|]]; simpl; try exact Hl.
    destruct (user_label_throws info); simpl; try exact Hl;
      match goal with
      | |- context [cache_insert ?N ?k ?e ?c] =>
          pose proof (wf_cache_insert N k e c Hl) as Hi;
          destruct (cache_insert N k e c) as [c2 []]; exact Hi
      end.
Qed.

(** C2. A token whose payload yields an expiry [e <= now] is refused:
    the validator returns no claims, no entry is left under the token's
    digest, every other entry is untouched, and no request is sent to the
    identity provider. *)
Theorem local_expiry_short_circuit decode cfg env token w e :
  world_inv cfg w ->
  getTokenExpiry decode token = Some e ->
  e <= now env ->
  let r := verifyOAuthToken decode cfg env token w in
  fst r = None
  /\ JsMap.get (hashToken token) (tokenCache (snd r)) = None
  /\ (forall k, k <> hashToken token ->
                JsMap.get k (tokenCache (snd r)) = JsMap.get k (tokenCache w))
  /\ userinfoCalls (snd r) = userinfoCalls w.
Proof.
  intros [Hwf Hempty] Hexp Hle r. subst r. unfold verifyOAuthToken.
  destruct (domain_of cfg) as [d|] eqn:Hd.
  - rewrite Hexp, (truthy_expiry_Some e (getTokenExpiry_nonzero _ _ _ Hexp)).
    destruct (Z.leb_spec e (now env)); [|lia]. simpl.
    split; [reflexivity|]. split; [now apply JsMapFacts.get_delete_same|].
    split; [|reflexivity].
    intros k Hk. now apply JsMapFacts.get_delete_other.
  - simpl. rewrite (Hempty eq_refl). auto.
Qed.

Lemma local_expiry_short_circuit_witness :
  let w := {| tokenCache := [(hashToken "h.p.s", Sample.entry Sample.alice 5000)];
              userinfoCalls := [] |} in
  let r := verifyOAuthToken Sample.decoder Sample.cfg (Sample.accepting 1000) "h.p.s" w in
  getTokenExpiry Sample.decoder "h.p.s" = Some 1000
  /\ fst r = None /\ tokenCache (snd r) = [] /\ userinfoCalls (snd r) = [].
Proof.
  intros w r.
  assert (Hinv : world_inv Sample.cfg w).
  { split; [solve_wf | discriminate]. }
  assert (Hexp : getTokenExpiry Sample.decoder "h.p.s" = Some 1000) by reflexivity.
  assert (Hle : 1000 <= now (Sample.accepting 1000)) by (simpl; lia).
  destruct (local_expiry_short_circuit Sample.decoder Sample.cfg (Sample.accepting 1000)
              "h.p.s" w 1000 Hinv Hexp Hle) as [Hr [_ [_ Hc]]].
  split; [exact Hexp|]. split; [exact Hr|]. split; [|exact Hc].
  vm_compute. reflexivity.
Defined.

Lemma cache_lookup_live_iff t k (c : TokenCache) k' info :
  JsMap.wf c ->
  live_entry t k' (snd (cache_lookup t k c)) info <-> live_entry t k' c info.
Proof.
  intros Hwf. unfold cache_lookup.
  destruct (JsMap.get k c) as [cached|] eqn:Hget; [|tauto].
  destruct (Z.ltb_spec t (expiry cached)) as [Hlt|Hge]; [tauto|].
  simpl. unfold live_entry.
  destruct (string_dec k' k) as [->|Hne].
  - rewrite JsMapFacts.get_delete_same by exact Hwf. rewrite Hget.
    split; intros [E [HE Ht]]; [discriminate|].
    inversion HE; subst cached. simpl in Hge. lia.
  - now rewrite JsMapFacts.get_delete_other by exact Hne.
Qed.

(** C8. When the validator has asked the identity provider and the
    answer is a failure (the request raises, the status is not a success,
    or the body is not JSON), it returns no claims, it raises nothing, and
    it inserts nothing: the cache is exactly what the cache read that
    precedes the call left, so every live entry is as it was, and the only
    thing that can be gone is an entry under this token's digest that had
    already expired. *)
Theorem provider_failure_is_invalid decode cfg env token w d :
  domain_of cfg = Some d ->
  let r := verifyOAuthToken decode cfg env token w in
  userinfoCalls (snd r) <> userinfoCalls w ->
  provider_failed (fetch env (userinfoUrl d) ("Bearer " ++ token)) = true ->
  fst r = None
  /\ userinfoCalls (snd r)
     = (userinfoCalls w ++ [(userinfoUrl d, ("Bearer " ++ token)%string)])%list
  /\ tokenCache (snd r)
     = snd (cache_lookup (now env) (hashToken token) (tokenCache w))
  /\ (forall x, In x (tokenCache (snd r)) -> In x (tokenCache w))
  /\ (tokenCache (snd r) = tokenCache w
      \/ exists stale,
           JsMap.get (hashToken token) (tokenCache w) = Some stale
           /\ expiry stale <= now env
           /\ tokenCache (snd r) = JsMap.delete (hashToken token) (tokenCache w))
  /\ (JsMap.wf (tokenCache w) ->
      forall k info,
        live_entry (now env) k (tokenCache (snd r)) info
        <-> live_entry (now env) k (tokenCache w) info).
Proof.
  intros Hd r Hcall Hfail.
  assert (Hmain : fst r = None
    /\ userinfoCalls (snd r)
       = (userinfoCalls w ++ [(userinfoUrl d, ("Bearer " ++ token)%string)])%list
    /\ tokenCache (snd r)
       = snd (cache_lookup (now env) (hashToken token) (tokenCache w))).
  { revert Hcall. subst r. unfold verifyOAuthToken. rewrite Hd.
    destruct (match truthy_expiry _ with Some e => e <=? now env | None => false end);
      [simpl; intros H; now contradiction H|].
    destruct (cache_lookup (now env) (hashToken token) (tokenCache w)) as [[hit|] c1];
      [simpl; intros H; now contradiction H|].
    intros _.
    destruct (fetch env _ _) as [|[] st [info|]]; simpl in Hfail;
      try discriminate; simpl; auto. }
  destruct Hmain as [Hres [Hcalls Hcache]].
  split; [exact Hres|]. split; [exact Hcalls|]. split; [exact Hcache|].
  rewrite Hcache. split; [|split].
  - intros x. unfold cache_lookup.
    destruct (JsMap.get (hashToken token) (tokenCache w)) as [cached|]; [|tauto].
    destruct (now env <? expiry cached); [tauto|]. apply JsMapFacts.In_delete.
  - unfold cache_lookup.
    destruct (JsMap.get (hashToken token) (tokenCache w)) as [cached|]; [|now left].
    destruct (Z.ltb_spec (now env) (expiry cached)); [now left|].
    right. exists cached. auto.
  - intros Hwf k info. now apply cache_lookup_live_iff.
Qed.

Lemma provider_failure_is_invalid_witness :
  let r := verifyOAuthToken Sample.decoder Sample.cfg (Sample.rejecting 1000) "tokA"
                            initial_world in
  fst r = None /\ tokenCache (snd r) = [].
Proof.
  intros r.
  assert (Hd : domain_of Sample.cfg = Some "idp.example") by reflexivity.
  assert (Hcall : userinfoCalls (snd r) <> userinfoCalls initial_world)
    by (vm_compute; discriminate).
  assert (Hfail : provider_failed
                    (fetch (Sample.rejecting 1000) (userinfoUrl "idp.example")
                           ("Bearer " ++ "tokA")) = true) by reflexivity.
  destruct (provider_failure_is_invalid Sample.decoder Sample.cfg (Sample.rejecting 1000)
              "tokA" initial_world "idp.example" Hd Hcall Hfail)
    as [Hr [_ [_ [_ [[Hc | [stale [Hs _]]] _]]]]].
  - split; [exact Hr | exact Hc].
  - vm_compute in Hs. discriminate Hs.
Defined.

(** A body whose label cannot be converted to a string is a failed
    validation too: the log line throws inside the [try], nothing is stored. *)
Example unloggable_claims_are_refused :
  let body := JObj [("email", JObj [("toString", JNum 0)])] in
  let env := {| now := 1000; fetch := fun _ _ => FetchResponse true 200 (Some body) |} in
  let r := verifyOAuthToken Sample.decoder Sample.cfg env "tokA" initial_world in
  fst r = None /\ tokenCache (snd r) = []
  /\ userinfoCalls (snd r) = [("https://idp.example/userinfo", "Bearer tokA")].
Proof. vm_compute. repeat split. Qed.

(** ** Facts about strings *)

Lemma string_append_assoc (a b c : string) : (a ++ b) ++ c = a ++ (b ++ c).
Proof. induction a as [|x a IH]; simpl; [reflexivity | now rewrite IH]. Qed.

Lemma trimStart_all_space s : all_space s = true -> JsString.trimStart s = EmptyString.
Proof.
  unfold all_space. induction s as [|c s IH]; simpl; [reflexivity|].
  destruct (JsString.is_space c); simpl; [exact IH | discriminate].
Qed.

Lemma trimStart_empty s : JsString.trimStart s = EmptyString -> all_space s = true.
Proof.
  unfold all_space. induction s as [|c s IH]; simpl; [reflexivity|].
  destruct (JsString.is_space c); simpl; [exact IH | discriminate].
Qed.

Lemma trimStart_head s c r :
  JsString.trimStart s = String c r -> JsString.is_space c = false.
Proof.
  induction s as [|c0 s IH]; simpl; [discriminate|].
  destruct (JsString.is_space c0) eqn:E; [exact IH|].
  intros [= -> _]. exact E.
Qed.

Lemma trimEnd_head c r :
  JsString.is_space c = false -> JsString.trimEnd (String c r) <> EmptyString.
Proof.
  intros Hc. simpl. destruct (JsString.trimEnd r); [rewrite Hc|]; discriminate.
Qed.

Lemma trimEnd_first s c r :
  JsString.trimEnd s = String c r -> first_char s = Some c.
Proof.
  destruct s as [|c0 s]; simpl; [discriminate|].
  destruct (JsString.trimEnd s).
  - destruct (JsString.is_space c0); [discriminate|]. now intros [= -> _].
  - now intros [= -> _].
Qed.

Lemma trimEnd_last s b :
  last_char (JsString.trimEnd s) = Some b -> JsString.is_space b = false.
Proof.
  induction s as [|c s IH]; simpl; [discriminate|].
  destruct (JsString.trimEnd s) as [|c' r] eqn:E.
  - destruct (JsString.is_space c) eqn:Hc; simpl; [discriminate|].
    now intros [= <-].
  - intros H. apply IH. exact H.
Qed.

Lemma trim_clean_ends s : clean_ends (JsString.trim s) = true.
Proof.
  unfold clean_ends, JsString.trim.
  destruct (JsString.trimEnd (JsString.trimStart s)) as [|c r] eqn:E; [reflexivity|].
  assert (Hc : JsString.is_space c = false).
  { pose proof (trimEnd_first _ _ _ E) as Hf.
    destruct (JsString.trimStart s) as [|c0 r0] eqn:Es; [discriminate|].
    simpl in Hf. inversion Hf; subst c0. eapply trimStart_head; eauto. }
  unfold first_char.
  destruct (last_char (String c r)) as [b|] eqn:Hl; [|reflexivity].
  rewrite <- E in Hl. apply trimEnd_last in Hl. now rewrite Hc, Hl.
Qed.

Lemma all_space_cons c s :
  all_space (String c s) = (JsString.is_space c && all_space s)%bool.
Proof. reflexivity. Qed.

Lemma trimStart_decompose s :
  exists l, s = l ++ JsString.trimStart s /\ all_space l = true.
Proof.
  induction s as [|c s [l [Hs Hl]]]; [exists EmptyString; auto|].
  simpl. destruct (JsString.is_space c) eqn:Hc.
  - exists (String c l). simpl. rewrite <- Hs, all_space_cons, Hc, Hl. auto.
  - exists EmptyString. auto.
Qed.

Lemma trimEnd_decompose s :
  exists r, s = JsString.trimEnd s ++ r /\ all_space r = true.
Proof.
  induction s as [|c s [r [Hs Hr]]]; [exists EmptyString; auto|].
  simpl. destruct (JsString.trimEnd s) as [|c' t] eqn:E.
  - simpl in Hs. subst r.
    destruct (JsString.is_space c) eqn:Hc.
    + exists (String c s). rewrite all_space_cons, Hc, Hr. auto.
    + exists s. auto.
  - exists r. simpl. rewrite Hs at 1. auto.
Qed.

(** [trim] gives the empty string exactly on blank input. *)
Lemma trim_empty_iff s : JsString.trim s = EmptyString <-> all_space s = true.
Proof.
  unfold JsString.trim. split.
  - intros H. destruct (JsString.trimStart s) as [|c r] eqn:E.
    + now apply trimStart_empty.
    + exfalso. apply (trimEnd_head c r); [eapply trimStart_head; eauto | exact H].
  - intros H. now rewrite trimStart_all_space.
Qed.

Lemma prefix_append pat s : String.prefix pat (pat ++ s) = true.
Proof.
  induction pat as [|c pat IH]; simpl; [now destruct s|].
  destruct (ascii_dec c c); [exact IH | contradiction].
Qed.

Lemma drop_append pat s : JsString.drop (String.length pat) (pat ++ s) = s.
Proof. induction pat as [|c pat IH]; simpl; [reflexivity | exact IH]. Qed.

(** When [pat] first occurs right after [pre], it is that occurrence
    which is cut out. *)
Lemma remove_first_at pat post : forall pre,
  (forall i, (i < String.length pre)%nat -> occurs_at pat (pre ++ pat ++ post) i = false) ->
  JsString.remove_first pat (pre ++ pat ++ post) = pre ++ post.
Proof.
  induction pre as [|c pre IH]; intros H.
  - simpl append. destruct (pat ++ post) eqn:E.
    + destruct pat; [|discriminate]. simpl in E. subst. reflexivity.
    + rewrite <- E. unfold JsString.remove_first at 1.
      destruct (pat ++ post) eqn:E2; [discriminate|]. rewrite <- E2.
      rewrite prefix_append, drop_append. reflexivity.
  - simpl append. simpl JsString.remove_first.
    pose proof (H 0%nat ltac:(simpl; lia)) as H0.
    unfold occurs_at in H0. simpl in H0. rewrite H0.
    f_equal. apply IH. intros i Hi.
    apply (H (S i)). simpl. lia.
Qed.

(** When [pat] does not occur, nothing is cut. *)
Lemma remove_first_none pat : forall s,
  (forall i, occurs_at pat s i = false) -> JsString.remove_first pat s = s.
Proof.
  induction s as [|c s IH]; intros H.
  - pose proof (H 0%nat) as H0. unfold occurs_at in H0. simpl in H0.
    simpl. now rewrite H0.
  - pose proof (H 0%nat) as H0. unfold occurs_at in H0. simpl in H0.
    simpl JsString.remove_first. rewrite H0. f_equal. apply IH.
    intros i. exact (H (S i)).
Qed.

(** ** The auth middleware *)

(** A validation sends at most one request, carrying the token it was given. *)
Lemma verifyOAuthToken_calls decode cfg env token w d :
  domain_of cfg = Some d ->
  let w' := snd (verifyOAuthToken decode cfg env token w) in
  userinfoCalls w' = userinfoCalls w
  \/ userinfoCalls w'
     = (userinfoCalls w ++ [(userinfoUrl d, ("Bearer " ++ token)%string)])%list.
Proof.
  intros Hd. unfold verifyOAuthToken. rewrite Hd.
  destruct (match truthy_expiry _ with Some e => e <=? now env | None => false end);
    [left; reflexivity|].
  destruct (cache_lookup _ _ _) as [[hit|] c1]; [left; reflexivity|].
  destruct (fetch env _ _) as [|[] st [info|]]; try (right; reflexivity).
  destruct (user_label_throws info); try (right; reflexivity);
    destruct (cache_insert _ _ _ _) as [c2 []]; right; reflexivity.
Qed.

Lemma gate_no_token decode cfg env req w d :
  is_exempt req = false ->
  JsString.startsWith (path req) "/mcp" = true ->
  domain_of cfg = Some d ->
  bearer_token req = EmptyString ->
  authMiddleware decode cfg env req w
  = (Respond 401 [("WWW-Authenticate", challenge_no_token cfg)]
             "Unauthorized - No token", w).
Proof.
  intros He Hp Hd Ht. unfold authMiddleware.
  rewrite He, Hp, Hd, Ht. reflexivity.
Qed.

(** C5. An empty or white-space-only credential is rejected at once.
    The validator is reached only through the middleware, which tests the
    credential first: on a protected route of a configured gateway, a
    request whose credential (what is left of the Authorization header once
    [Bearer ] is cut out) is empty or white space only is answered 401 as
    unauthenticated and the world is untouched: the token is not hashed
    into anything, the cache is neither read nor written, and no request
    goes to the identity provider. *)
Theorem gate_rejects_blank_credential decode cfg env req w d :
  is_exempt req = false ->
  JsString.startsWith (path req) "/mcp" = true ->
  domain_of cfg = Some d ->
  all_space (JsString.remove_first "Bearer " (header_text (authorization req))) = true ->
  authMiddleware decode cfg env req w
  = (Respond 401 [("WWW-Authenticate", challenge_no_token cfg)]
             "Unauthorized - No token", w).
Proof.
  intros He Hp Hd Hblank.
  apply (gate_no_token decode cfg env req w d He Hp Hd).
  unfold bearer_token. now apply trim_empty_iff.
Qed.

Lemma gate_rejects_blank_credential_witness :
  let req := Sample.request "POST" "/mcp" (Some "Bearer    ") None Sample.initialize in
  authMiddleware Sample.decoder Sample.cfg (Sample.accepting 1000) req initial_world
  = (Respond 401 [("WWW-Authenticate", challenge_no_token Sample.cfg)]
             "Unauthorized - No token", initial_world).
Proof.
  intros req.
  apply (gate_rejects_blank_credential Sample.decoder Sample.cfg (Sample.accepting 1000)
           req initial_world "idp.example"); reflexivity.
Defined.

(** C6, as the code has it. For a request with no bearer credential,
    the middleware never touches the world, and: an exempt request (the
    health probe, a [/.well-known/] path, an OPTIONS request) proceeds; a
    request that is not exempt and whose path starts with [/mcp] is not
    forwarded: it is answered 401 with the no-token challenge, which
    points at the protected-resource metadata document, when the
    identity-provider domain is configured, and 500 when it is not. *)
Theorem gate_without_credential decode cfg env req w :
  bearer_token req = EmptyString ->
  let out := authMiddleware decode cfg env req w in
  snd out = w
  /\ (path req = "/health" \/ String.prefix "/.well-known/" (path req) = true
      \/ method req = "OPTIONS" -> fst out = Next)
  /\ (is_exempt req = false -> String.prefix "/mcp" (path req) = true ->
      (forall d, domain_of cfg = Some d ->
                 fst out = Respond 401 [("WWW-Authenticate", challenge_no_token cfg)]
                                   "Unauthorized - No token")
      /\ (domain_of cfg = None -> fst out = Respond 500 [] "Server misconfigured"))
  /\ (exists before,
        challenge_no_token cfg
        = before ++ "resource_metadata=" ++ JsString.dquote ++ MCP_SERVER_URL cfg
          ++ "/.well-known/oauth-protected-resource" ++ JsString.dquote).
Proof.
  intros Ht out. subst out. unfold authMiddleware, JsString.startsWith.
  split; [|split; [|split]].
  - destruct (is_exempt req); [reflexivity|].
    destruct (String.prefix "/mcp" (path req)); [|reflexivity].
    destruct (domain_of cfg); [|reflexivity].
    rewrite Ht. reflexivity.
  - intros Hex.
    assert (E : is_exempt req = true).
    { unfold is_exempt, JsString.startsWith.
      destruct Hex as [H|[H|H]]; rewrite H; simpl;
        rewrite ?orb_true_r; reflexivity. }
    rewrite E. reflexivity.
  - intros He Hp. rewrite He, Hp. split.
    + intros d Hd. rewrite Hd, Ht. reflexivity.
    + intros Hd. rewrite Hd. reflexivity.
  - exists (realm cfg ++ ", "). unfold challenge_no_token, resource_metadata.
    now rewrite string_append_assoc.
Qed.

Lemma gate_without_credential_witness :
  let req := Sample.request "POST" "/mcp" None None Sample.initialize in
  authMiddleware Sample.decoder Sample.cfg (Sample.accepting 1000) req initial_world
  = (Respond 401 [("WWW-Authenticate", challenge_no_token Sample.cfg)]
             "Unauthorized - No token", initial_world).
Proof.
  intros req.
  assert (Ht : bearer_token req = EmptyString) by reflexivity.
  destruct (gate_without_credential Sample.decoder Sample.cfg (Sample.accepting 1000)
              req initial_world Ht) as [Hw [_ [Hmcp _]]].
  destruct (Hmcp eq_refl eq_refl) as [H401 _].
  specialize (H401 "idp.example" eq_refl).
  rewrite (surjective_pairing (authMiddleware _ _ _ _ _)).
  f_equal; assumption.
Defined.

(** Without a configured identity-provider domain, a request under
    [/mcp] with no credential is answered 500 with no challenge, not 401. *)
Lemma gate_unconfigured_answers_500 :
  let req := Sample.request "POST" "/mcp" None None Sample.initialize in
  is_exempt req = false
  /\ bearer_token req = EmptyString
  /\ authMiddleware Sample.decoder Sample.unconfigured (Sample.accepting 1000) req
                    initial_world
     = (Respond 500 [] "Server misconfigured", initial_world).
Proof. vm_compute. repeat split. Qed.

(** ** Cache keys *)

Lemma hexdigit_lower_hex n : is_lower_hex_char (Sha256.hexdigit n) = true.
Proof.
  unfold Sha256.hexdigit.
  assert (Hb : 0 <= Z.land n 15 < 16).
  { change 15 with (Z.ones 4). rewrite Z.land_ones by lia.
    apply Z.mod_pos_bound. lia. }
  set (m := Z.to_nat (Z.land n 15)).
  assert (Hm : (m < 16)%nat) by (unfold m; lia).
  clearbody m.
  do 16 (destruct m as [|m]; [reflexivity|]). lia.
Qed.

Lemma hashToken_length token : String.length (hashToken token) = 64%nat.
Proof. reflexivity. Qed.

Lemma hashToken_lower_hex token : is_lower_hex (hashToken token) = true.
Proof.
  unfold hashToken, Sha256.sha256_hex, Sha256.hex, Sha256.hex32, is_lower_hex.
  cbn [list_ascii_of_string forallb].
  rewrite !hexdigit_lower_hex. reflexivity.
Qed.

Lemma keys_evict_loop sorted r : forall i c x,
  In x (JsMap.keys (fst (evict_loop sorted i r c))) -> In x (JsMap.keys c).
Proof.
  induction r as [|r IH]; intros i c x; simpl; [tauto|].
  destruct (nth_error sorted i) as [[k e]|]; [|tauto].
  intros H. apply IH in H. eapply JsMapFacts.keys_delete; eauto.
Qed.

Lemma keys_cache_insert N k e c x :
  In x (JsMap.keys (fst (cache_insert N k e c))) -> x = k \/ In x (JsMap.keys c).
Proof.
  unfold cache_insert, enforce_limit. intros H.
  apply JsMapFacts.keys_set with (v := e).
  destruct (_ >? N); [eapply keys_evict_loop; eauto | exact H].
Qed.

Lemma keys_cache_lookup t k c x :
  In x (JsMap.keys (snd (cache_lookup t k c))) -> In x (JsMap.keys c).
Proof.
  unfold cache_lookup. destruct (JsMap.get k c) as [cached|]; [|tauto].
  destruct (t <? expiry cached); [tauto|]. apply JsMapFacts.keys_delete.
Qed.

(** One validation adds no key but the digest of its token. *)
Lemma verifyOAuthToken_keys decode cfg env token w x :
  In x (JsMap.keys (tokenCache (snd (verifyOAuthToken decode cfg env token w)))) ->
  x = hashToken token \/ In x (JsMap.keys (tokenCache w)).
Proof.
  unfold verifyOAuthToken.
  destruct (domain_of cfg) as [d|]; [|simpl; tauto].
  destruct (match truthy_expiry _ with Some e => e <=? now env | None => false end).
  { simpl. intros H. right. eapply JsMapFacts.keys_delete; eauto. }
  pose proof (keys_cache_lookup (now env) (hashToken token) (tokenCache w) x) as Hl.
  destruct (cache_lookup _ _ _) as [[hit|] c1]; simpl in *; [tauto|].
  destruct (fetch env _ _) as [|[] st [info|]]; simpl; try tauto.
  destruct (user_label_throws info); simpl; try tauto;
    match goal with
    | |- context [cache_insert ?N ?k ?e ?c] =>
        pose proof (keys_cache_insert N k e c x) as Hi;
        destruct (cache_insert N k e c) as [c2 []]; simpl in *; tauto
    end.
Qed.

Lemma verify_all_keys decode cfg calls : forall w x,
  In x (JsMap.keys (tokenCache (verify_all decode cfg calls w))) ->
  (exists t, In t (map snd calls) /\ x = hashToken t)
  \/ In x (JsMap.keys (tokenCache w)).
Proof.
  induction calls as [|[env token] calls IH]; intros w x; simpl; [tauto|].
  intros H. apply IH in H. destruct H as [[t [Ht Hx]]|H].
  - left. exists t. auto.
  - apply verifyOAuthToken_keys in H. destruct H as [->|H]; [|tauto].
    left. exists token. auto.
Qed.

(** C9, as the code has it. Starting from the empty cache, whatever
    tokens are validated: every cache key is the SHA-256 hex digest of one
    of those tokens, 64 characters, all lower-case hexadecimal; so a string
    that is not 64 lower-case hexadecimal characters, raw token or not, is
    never a cache key; and one more validation, of a token [T], adds no key
    other than the digest of [T]. *)
Theorem cache_keys_are_digests decode cfg calls :
  let w := verify_all decode cfg calls initial_world in
  (forall k, In k (JsMap.keys (tokenCache w)) ->
     (exists t, In t (map snd calls) /\ k = hashToken t)
     /\ String.length k = 64%nat
     /\ is_lower_hex k = true)
  /\ (forall T, String.length T <> 64%nat \/ is_lower_hex T = false ->
                ~ In T (JsMap.keys (tokenCache w)))
  /\ (forall env T k,
        In k (JsMap.keys (tokenCache (snd (verifyOAuthToken decode cfg env T w)))) ->
        k = hashToken T \/ In k (JsMap.keys (tokenCache w))).
Proof.
  intros w.
  assert (Hkeys : forall k, In k (JsMap.keys (tokenCache w)) ->
            (exists t, In t (map snd calls) /\ k = hashToken t)
            /\ String.length k = 64%nat
            /\ is_lower_hex k = true).
  { intros k H. apply verify_all_keys in H. destruct H as [[t [Ht ->]]|[]].
    split; [exists t; auto|].
    split; [apply hashToken_length | apply hashToken_lower_hex]. }
  split; [exact Hkeys|]. split.
  - intros T Hshape Hin. destruct (Hkeys T Hin) as [_ [Hlen Hhex]].
    destruct Hshape as [Hs|Hs]; congruence.
  - intros env T k. apply verifyOAuthToken_keys.
Qed.

Lemma cache_keys_are_digests_witness :
  let calls := [(Sample.accepting 1000, "abc")] in
  let w := verify_all Sample.decoder Sample.cfg calls initial_world in
  ~ In "abc" (JsMap.keys (tokenCache w))
  /\ (forall k, In k (JsMap.keys (tokenCache w)) -> String.length k = 64%nat).
Proof.
  intros calls w.
  destruct (cache_keys_are_digests Sample.decoder Sample.cfg calls) as [Hk [Hraw _]].
  split.
  - apply Hraw. left. discriminate.
  - intros k Hin. exact (proj1 (proj2 (Hk k Hin))).
Defined.

(** A presented token can equal a cache key: the digest of a validated
    token, presented as a token itself. *)
Lemma cache_key_equals_presented_token :
  let T := "ba7816bf8f01cfea414140de5dae2223b00361a396177a9cb410ff61f20015ad" in
  let calls := [(Sample.accepting 1000, "abc"); (Sample.accepting 1001, T)] in
  In T (map snd calls)
  /\ In T (JsMap.keys (tokenCache
             (verify_all Sample.decoder Sample.cfg calls initial_world))).
Proof.
  split.
  - right. left. reflexivity.
  - vm_compute. left. reflexivity.
Qed.

(** ** Sessions *)

(** C3, as the code has it. Once the close callback of a session has
    run, a DELETE carrying that session id is answered 400; the callback
    itself is idempotent. *)
Theorem delete_after_close_is_rejected run req (reg : Registry) sid :
  JsMap.wf reg ->
  mcp_session_id req = Some sid ->
  let reg' := onclose (Some sid) reg in
  delete_mcp run req reg' = Reply 400 (Text "Invalid or missing session ID")
  /\ onclose (Some sid) reg' = reg'.
Proof.
  intros Hwf Hsid reg'.
  assert (Hgone : (header_truthy (Some sid) && JsMap.has sid reg')%bool = false).
  { subst reg'. unfold onclose. simpl header_text.
    destruct (header_truthy (Some sid)); [|reflexivity]. simpl.
    destruct (JsMap.has sid reg) eqn:Hhas; [|exact Hhas].
    unfold JsMap.has. now rewrite JsMapFacts.get_delete_same. }
  split.
  - unfold delete_mcp. rewrite Hsid. simpl header_text.
    rewrite <- negb_andb, Hgone. reflexivity.
  - unfold onclose at 1. simpl header_text. now rewrite Hgone.
Qed.

Lemma delete_after_close_is_rejected_witness :
  let req := Sample.request "DELETE" "/mcp" (Some "Bearer t") (Some "s1") JNull in
  delete_mcp Sample.serving req (onclose (Some "s1") [("s1", 7%nat)])
  = Reply 400 (Text "Invalid or missing session ID").
Proof.
  intros req.
  assert (Hwf : JsMap.wf (V := Transport) [("s1", 7%nat)]) by solve_wf.
  exact (proj1 (delete_after_close_is_rejected Sample.serving req
                  [("s1", 7%nat)] "s1" Hwf eq_refl)).
Defined.

(** The second DELETE of a session is a failure response. *)
Lemma second_delete_is_rejected :
  let req := Sample.request "DELETE" "/mcp" (Some "Bearer t") (Some "s1") JNull in
  let reg0 : Registry := [("s1", 7%nat)] in
  let reg1 := onclose (Some "s1") reg0 in
  delete_mcp Sample.serving req reg0 = ByTransport 7%nat
  /\ reg1 = []
  /\ delete_mcp Sample.serving req reg1 = Reply 400 (Text "Invalid or missing session ID").
Proof. vm_compute. repeat split. Qed.

(** C4, as the code has it. For a POST whose body is an initialize
    message: with a non-empty session id that is not registered, the answer
    is 400 with JSON-RPC code -32000 and a null id; with a registered
    session id, the request goes to that session's transport; and a fresh
    transport answers only when the session id header is missing or empty. *)
Theorem initialize_with_session_header isInit run req (reg : Registry) :
  isInit (body req) = true ->
  let out := post_mcp isInit run req reg in
  (forall sid, mcp_session_id req = Some sid -> sid <> EmptyString ->
               JsMap.get sid reg = None ->
               out = Reply 400 (Envelope {| jsonrpc := "2.0"; code := -32000;
                                            message := "Bad Request: No valid session ID provided";
                                            id := None |}))
  /\ (forall sid t, mcp_session_id req = Some sid -> sid <> EmptyString ->
                    JsMap.get sid reg = Some t ->
                    out = match run (Some t) with
                          | Served => ByTransport t
                          | Threw false => internal_error
                          | Threw true => Unanswered
                          end)
  /\ (out = ByNewTransport ->
      mcp_session_id req = None \/ mcp_session_id req = Some EmptyString).
Proof.
  intros Hinit out. subst out. unfold post_mcp.
  split; [|split].
  - intros sid Hsid Hne Hget. rewrite Hsid. simpl header_text.
    unfold JsMap.has. rewrite Hget.
    destruct sid; [contradiction Hne; reflexivity|]. reflexivity.
  - intros sid t Hsid Hne Hget. rewrite Hsid. simpl header_text.
    unfold JsMap.has. rewrite Hget.
    destruct sid; [contradiction Hne; reflexivity|]. reflexivity.
  - destruct (mcp_session_id req) as [[|c sid]|]; auto.
    simpl. unfold JsMap.has.
    destruct (JsMap.get (String c sid) reg) as [t|]; simpl.
    + destruct (run (Some t)) as [|[]]; discriminate.
    + discriminate.
Qed.

Lemma initialize_with_session_header_witness :
  let req := Sample.request "POST" "/mcp" (Some "Bearer t") (Some "zzz") Sample.initialize in
  post_mcp Sample.isInitialize Sample.serving req [("s1", 7%nat)]
  = Reply 400 (Envelope {| jsonrpc := "2.0"; code := -32000;
                           message := "Bad Request: No valid session ID provided";
                           id := None |}).
Proof.
  intros req.
  destruct (initialize_with_session_header Sample.isInitialize Sample.serving req
              [("s1", 7%nat)] eq_refl) as [Hbad _].
  apply (Hbad "zzz"); [reflexivity | discriminate | reflexivity].
Defined.

(** An initialize message carrying the id of a live session is not
    refused by the route: it is handed to that session's transport. *)
Lemma initialize_on_live_session_is_forwarded :
  let req := Sample.request "POST" "/mcp" (Some "Bearer t") (Some "s1") Sample.initialize in
  Sample.isInitialize (body req) = true
  /\ mcp_session_id req = Some "s1"
  /\ post_mcp Sample.isInitialize Sample.serving req [("s1", 7%nat)] = ByTransport 7%nat.
Proof. vm_compute. repeat split. Qed.

(** ** A run of the validator *)

(** The same token twice within the TTL costs one provider call; once the
    TTL has passed, the next validation asks the provider again. *)
Example same_token_twice :
  let w1 := snd (verifyOAuthToken Sample.decoder Sample.cfg (Sample.accepting 1000)
                                  "tokA" initial_world) in
  let r2 := verifyOAuthToken Sample.decoder Sample.cfg (Sample.rejecting 2000) "tokA" w1 in
  let r3 := verifyOAuthToken Sample.decoder Sample.cfg (Sample.accepting 121000) "tokA"
                             (snd r2) in
  JsMap.get (hashToken "tokA") (tokenCache w1) = Some (Sample.entry Sample.alice 121000)
  /\ fst r2 = Some Sample.alice
  /\ List.length (userinfoCalls (snd r2)) = 1%nat
  /\ fst r3 = Some Sample.alice
  /\ List.length (userinfoCalls (snd r3)) = 2%nat.
Proof. vm_compute. repeat split. Qed.

(** * Further properties of the gateway *)

(** ** The expiry extractor *)

Lemma string_length_append (a b : string) :
  String.length (a ++ b) = (String.length a + String.length b)%nat.
Proof. induction a as [|c a IH]; simpl; [reflexivity | now rewrite IH]. Qed.

Lemma repeat_length c n : String.length (JsString.repeat c n) = n.
Proof. induction n as [|n IH]; simpl; [reflexivity | now rewrite IH]. Qed.

Lemma split_not_nil sep s : JsString.split sep s <> [].
Proof.
  destruct s as [|c s]; simpl; [discriminate|].
  destruct (Ascii.eqb c sep); [discriminate|].
  destruct (JsString.split sep s); discriminate.
Qed.

Lemma split_length sep s :
  List.length (JsString.split sep s) = S (count_char sep s).
Proof.
  induction s as [|c s IH]; simpl; [reflexivity|].
  destruct (Ascii.eqb c sep); simpl; [now rewrite IH|].
  destruct (JsString.split sep s) eqn:E; [now apply split_not_nil in E|].
  exact IH.
Qed.

Lemma split_no_sep sep s : count_char sep s = 0%nat -> JsString.split sep s = [s].
Proof.
  induction s as [|c s IH]; simpl; [reflexivity|].
  destruct (Ascii.eqb c sep); [discriminate|].
  intros H. now rewrite (IH H).
Qed.

Lemma split_at_sep sep h rest :
  count_char sep h = 0%nat ->
  JsString.split sep (h ++ String sep rest) = h :: JsString.split sep rest.
Proof.
  induction h as [|c h IH]; simpl.
  - intros _. now rewrite Ascii.eqb_refl.
  - destruct (Ascii.eqb c sep); [discriminate|].
    intros H. now rewrite (IH H).
Qed.

Lemma padded_length_mod4 n : ((n + (4 - n mod 4) mod 4) mod 4 = 0)%nat.
Proof.
  pose proof (Nat.div_mod_eq n 4) as Hn.
  pose proof (Nat.mod_upper_bound n 4 ltac:(lia)) as Hr.
  set (q := (n / 4)%nat) in *. set (r := (n mod 4)%nat) in *.
  destruct r as [|[|[|[|r]]]]; try lia.
  - replace (n + (4 - 0) mod 4)%nat with (q * 4)%nat
      by (change ((4 - 0) mod 4)%nat with 0%nat; lia).
    apply Nat.Div0.mod_mul.
  - replace (n + (4 - 1) mod 4)%nat with ((q + 1) * 4)%nat
      by (change ((4 - 1) mod 4)%nat with 3%nat; lia).
    apply Nat.Div0.mod_mul.
  - replace (n + (4 - 2) mod 4)%nat with ((q + 1) * 4)%nat
      by (change ((4 - 2) mod 4)%nat with 2%nat; lia).
    apply Nat.Div0.mod_mul.
  - replace (n + (4 - 3) mod 4)%nat with ((q + 1) * 4)%nat
      by (change ((4 - 3) mod 4)%nat with 1%nat; lia).
    apply Nat.Div0.mod_mul.
Qed.

(** X1. A token that does not have exactly two dots (three segments)
    has no local expiry, whatever the decoder would make of it. *)
Theorem getTokenExpiry_needs_three_segments decode token :
  count_char "."%char token <> 2%nat ->
  getTokenExpiry decode token = None.
Proof.
  intros H. unfold getTokenExpiry. rewrite split_length.
  destruct (Nat.eqb_spec (S (count_char "."%char token)) 3) as [E|E]; [lia|].
  reflexivity.
Qed.

Lemma getTokenExpiry_needs_three_segments_witness :
  getTokenExpiry (fun _ => Some (JObj [("exp", JNum 1)])) "a.b.c.d" = None.
Proof.
  apply getTokenExpiry_needs_three_segments. simpl. discriminate.
Defined.

(** X2. The payload is padded before it is decoded: the decoder is only
    ever handed a string whose length is a multiple of 4, so a decoder that
    knows no such string yields no expiry. *)
Theorem getTokenExpiry_pads_payload decode token :
  (forall s, (String.length s mod 4 = 0)%nat -> decode s = None) ->
  getTokenExpiry decode token = None.
Proof.
  intros H. unfold getTokenExpiry.
  destruct (negb _); [reflexivity|].
  rewrite H; [reflexivity|].
  rewrite string_length_append, repeat_length. apply padded_length_mod4.
Qed.

Lemma getTokenExpiry_pads_payload_witness :
  getTokenExpiry
    (fun s => if Nat.eqb (String.length s mod 4) 0 then None
              else Some (JObj [("exp", JNum 1)]))
    "h.p.s" = None.
Proof.
  apply getTokenExpiry_pads_payload.
  intros s Hs. now rewrite Hs.
Defined.

(** X3. The local expiry is read from the middle segment alone: two
    three-segment tokens with the same payload segment have the same local
    expiry, whatever their header and signature segments are. *)
Theorem getTokenExpiry_ignores_signature decode h1 s1 h2 s2 p :
  count_char "."%char h1 = 0%nat -> count_char "."%char s1 = 0%nat ->
  count_char "."%char h2 = 0%nat -> count_char "."%char s2 = 0%nat ->
  count_char "."%char p = 0%nat ->
  getTokenExpiry decode (h1 ++ "." ++ p ++ "." ++ s1)
  = getTokenExpiry decode (h2 ++ "." ++ p ++ "." ++ s2).
Proof.
  intros Hh1 Hs1 Hh2 Hs2 Hp.
  assert (Hsplit : forall h s, count_char "."%char h = 0%nat ->
                               count_char "."%char s = 0%nat ->
            JsString.split "."%char (h ++ "." ++ p ++ "." ++ s) = [h; p; s]).
  { intros h s Hh Hs. simpl append.
    rewrite (split_at_sep "."%char h _ Hh).
    rewrite (split_at_sep "."%char p _ Hp).
    now rewrite (split_no_sep "."%char s Hs). }
  unfold getTokenExpiry.
  rewrite (Hsplit h1 s1 Hh1 Hs1), (Hsplit h2 s2 Hh2 Hs2). reflexivity.
Qed.

Lemma getTokenExpiry_ignores_signature_witness :
  getTokenExpiry Sample.decoder "h.p.s" = getTokenExpiry Sample.decoder "x.p.forged".
Proof.
  apply (getTokenExpiry_ignores_signature Sample.decoder "h" "s" "x" "forged" "p");
    reflexivity.
Defined.

(** ** What the validator decides *)

Lemma cache_lookup_hit_iff t k c info :
  fst (cache_lookup t k c) = Some info <-> live_entry t k c info.
Proof.
  unfold cache_lookup, live_entry. split.
  - destruct (JsMap.get k c) as [[u E]|]; simpl; [|discriminate].
    destruct (Z.ltb_spec t E); simpl; [|discriminate].
    intros [= ->]. exists E. auto.
  - intros [E [Hget Hlt]]. rewrite Hget. simpl.
    destruct (Z.ltb_spec t E); [reflexivity | lia].
Qed.

Lemma expired_check_false decode t token :
  not_expired_locally decode t token ->
  match truthy_expiry (getTokenExpiry decode token) with
  | Some e => e <=? t
  | None => false
  end = false.
Proof.
  intros H. destruct (getTokenExpiry decode token) as [e|] eqn:He; [|reflexivity].
  rewrite (truthy_expiry_Some e (getTokenExpiry_nonzero _ _ _ He)).
  specialize (H e He). destruct (Z.leb_spec e t); [lia | reflexivity].
Qed.

Lemma expired_check_false_inv decode t token :
  match truthy_expiry (getTokenExpiry decode token) with
  | Some e => e <=? t
  | None => false
  end = false ->
  not_expired_locally decode t token.
Proof.
  intros H e He. unfold not_expired_locally in *. rewrite He in H.
  rewrite (truthy_expiry_Some e (getTokenExpiry_nonzero _ _ _ He)) in H.
  destruct (Z.leb_spec e t); [discriminate | lia].
Qed.

Lemma user_label_throws_null info : user_label_throws info = false -> info <> JNull.
Proof. intros H ->. discriminate H. Qed.

Lemma provider_vouches_accepts env d token info :
  provider_vouches env d token info -> provider_accepts env d token info.
Proof.
  intros [Hf Hlog]. split; [exact Hf | now apply user_label_throws_null].
Qed.

(** Claims come out of the validator only by one of its two doors. *)
Lemma verifyOAuthToken_some decode cfg env token w info :
  fst (verifyOAuthToken decode cfg env token w) = Some info ->
  exists d,
    domain_of cfg = Some d
    /\ not_expired_locally decode (now env) token
    /\ ((live_entry (now env) (hashToken token) (tokenCache w) info
         /\ snd (verifyOAuthToken decode cfg env token w) = w)
        \/ (fst (cache_lookup (now env) (hashToken token) (tokenCache w)) = None
            /\ provider_vouches env d token info
            /\ userinfoCalls (snd (verifyOAuthToken decode cfg env token w))
               = (userinfoCalls w
                  ++ [(userinfoUrl d, ("Bearer " ++ token)%string)])%list)).
Proof.
  unfold verifyOAuthToken.
  destruct (domain_of cfg) as [d|]; [|discriminate].
  destruct (match truthy_expiry _ with Some e => e <=? now env | None => false end)
    eqn:Hexp; [discriminate|].
  intros H. exists d. split; [reflexivity|].
  split; [now apply expired_check_false_inv|].
  pose proof (cache_lookup_hit_iff (now env) (hashToken token) (tokenCache w)) as Hhit.
  destruct (cache_lookup (now env) (hashToken token) (tokenCache w)) as [[hit|] c1];
    simpl in *.
  - inversion H; subst. left. split; [now apply Hhit | reflexivity].
  - right. split; [reflexivity|].
    destruct (fetch env _ _) as [|[] st [body|]] eqn:Hf; try discriminate.
    destruct (user_label_throws body) eqn:Hp; try discriminate.
    destruct (cache_insert _ _ _ _) as [c2 []]; try discriminate.
    simpl in H. inversion H; subst.
    split; [split; [exists st; exact Hf | exact Hp] | reflexivity].
Qed.

Lemma size_set_le {V} (m : JsMap.t V) k v :
  (JsMap.size (JsMap.set k v m) <= S (JsMap.size m))%nat.
Proof.
  unfold JsMap.size. induction m as [|[k0 v0] m IH]; simpl; [lia|].
  destruct (String.eqb k k0); simpl; lia.
Qed.

Lemma size_delete_le {V} (m : JsMap.t V) k :
  (JsMap.size (JsMap.delete k m) <= JsMap.size m)%nat.
Proof.
  unfold JsMap.size. induction m as [|[k0 v0] m IH]; simpl; [lia|].
  destruct (String.eqb k k0); simpl; lia.
Qed.

Lemma size_cache_lookup_le t k c :
  (JsMap.size (snd (cache_lookup t k c)) <= JsMap.size c)%nat.
Proof.
  unfold cache_lookup. destruct (JsMap.get k c) as [cached|]; simpl; [|lia].
  destruct (t <? expiry cached); simpl; [lia | apply size_delete_le].
Qed.

(** With a bound that is not negative, the insert does not fault and
    leaves at most [N] entries. *)
Lemma cache_insert_no_fault N k e c :
  0 <= N -> JsMap.wf c ->
  snd (cache_insert N k e c) = false
  /\ Z.of_nat (JsMap.size (fst (cache_insert N k e c))) <= N.
Proof.
  intros HN Hwf. unfold cache_insert.
  destruct (enforce_limit_spec N (JsMap.set k e c) HN (JsMapFacts.wf_set c k e Hwf))
    as [Heq [Hn Hsz]].
  rewrite Heq. simpl. split; [reflexivity | lia].
Qed.

(** Nothing the validator could not log ever enters the cache. *)
Lemma In_evict_loop sorted r : forall i (c : TokenCache) x,
  In x (fst (evict_loop sorted i r c)) -> In x c.
Proof.
  induction r as [|r IH]; intros i c x; simpl; [tauto|].
  destruct (nth_error sorted i) as [[k e]|]; [|tauto].
  intros H. apply IH in H. eapply JsMapFacts.In_delete; eauto.
Qed.

Lemma loggable_cache_lookup t k c :
  loggable_cache c -> loggable_cache (snd (cache_lookup t k c)).
Proof.
  intros H. unfold cache_lookup. destruct (JsMap.get k c) as [cached|]; [|exact H].
  destruct (t <? expiry cached); [exact H|].
  intros k0 e0 Hin. apply (H k0 e0). eapply JsMapFacts.In_delete; eauto.
Qed.

Lemma loggable_cache_insert N k e c :
  loggable_cache c -> user_label_throws (userInfo e) = false ->
  loggable_cache (fst (cache_insert N k e c)).
Proof.
  intros H He k0 e0 Hin. unfold cache_insert, enforce_limit in Hin.
  assert (Hset : In (k0, e0) (JsMap.set k e c)).
  { destruct (_ >? N); [eapply In_evict_loop; eauto | exact Hin]. }
  apply JsMapFacts.In_set in Hset. destruct Hset as [[_ ->]|Hold]; [exact He|].
  now apply (H k0 e0).
Qed.

Lemma verifyOAuthToken_loggable decode cfg env token w :
  loggable_cache (tokenCache w) ->
  loggable_cache (tokenCache (snd (verifyOAuthToken decode cfg env token w))).
Proof.
  intros H. unfold verifyOAuthToken.
  destruct (domain_of cfg) as [d|]; [|exact H].
  destruct (match truthy_expiry _ with Some x => x <=? now env | None => false end).
  { simpl. intros k0 e0 Hin. apply (H k0 e0). eapply JsMapFacts.In_delete; eauto. }
  pose proof (loggable_cache_lookup (now env) (hashToken token) (tokenCache w) H) as Hl.
  destruct (cache_lookup _ _ _) as [[hit|] c1]; simpl in *; [exact H|].
  destruct (fetch env _ _) as [|[] st [info|]]; simpl; try exact Hl.
  destruct (user_label_throws info) eqn:Hlog; simpl; [exact Hl|].
  match goal with
  | |- context [cache_insert ?N ?k ?e ?c] =>
      pose proof (loggable_cache_insert N k e c Hl Hlog) as Hi;
      destruct (cache_insert N k e c) as [c2 []]; exact Hi
  end.
Qed.

(** X4. The validator's decision, in full, for a configured domain, a
    cache bound that is not negative and a cache as the validator builds
    it (distinct keys, only claims it could log): it returns claims [info]
    exactly when the token is not locally expired and either a live cache
    entry under its digest holds [info], or there is no live entry and the
    identity provider answers with success and a body [info] whose log line
    does not throw. *)
Theorem verifyOAuthToken_decision decode cfg env token w d info :
  0 <= TOKEN_CACHE_MAX_SIZE cfg ->
  JsMap.wf (tokenCache w) ->
  loggable_cache (tokenCache w) ->
  domain_of cfg = Some d ->
  fst (verifyOAuthToken decode cfg env token w) = Some info
  <-> not_expired_locally decode (now env) token
      /\ (live_entry (now env) (hashToken token) (tokenCache w) info
          \/ ((forall i, ~ live_entry (now env) (hashToken token) (tokenCache w) i)
              /\ provider_vouches env d token info)).
Proof.
  intros HN Hwf _ Hd. split.
  - intros H. destruct (verifyOAuthToken_some _ _ _ _ _ _ H)
      as [d' [Hd' [Hne [[Hlive _]|[Hmiss [Hacc _]]]]]].
    + split; [exact Hne | now left].
    + rewrite Hd in Hd'. inversion Hd'; subst d'.
      split; [exact Hne|]. right. split; [|exact Hacc].
      intros i Hi. apply cache_lookup_hit_iff in Hi. congruence.
  - intros [Hne Hcases]. unfold verifyOAuthToken. rewrite Hd.
    rewrite (expired_check_false _ _ _ Hne).
    destruct Hcases as [Hlive|[Hnone [[st Hf] Hlog]]].
    + apply cache_lookup_hit_iff in Hlive.
      destruct (cache_lookup _ _ _) as [[hit|] c1]; simpl in *; congruence.
    + pose proof (wf_cache_lookup (now env) (hashToken token) (tokenCache w) Hwf) as Hwf1.
      destruct (cache_lookup (now env) (hashToken token) (tokenCache w))
        as [[hit|] c1] eqn:Hl; simpl in *.
      * exfalso. apply (Hnone hit). apply cache_lookup_hit_iff. now rewrite Hl.
      * rewrite Hf, Hlog.
        match goal with
        | |- context [cache_insert ?N ?k ?e ?c] =>
            destruct (cache_insert_no_fault N k e c HN Hwf1) as [Hnf _];
            destruct (cache_insert N k e c) as [c2 threw]; simpl in Hnf; subst threw
        end.
        reflexivity.
Qed.

Lemma verifyOAuthToken_decision_witness :
  fst (verifyOAuthToken Sample.decoder Sample.cfg (Sample.accepting 1000) "tokA"
                        initial_world) = Some Sample.alice.
Proof.
  apply (verifyOAuthToken_decision Sample.decoder Sample.cfg (Sample.accepting 1000)
           "tokA" initial_world "idp.example" Sample.alice);
    [simpl; lia | constructor | intros k e [] | reflexivity |].
  split.
  - intros e He. vm_compute in He. discriminate He.
  - right. split.
    + intros i [E [Hget _]]. vm_compute in Hget. discriminate Hget.
    + split; [exists 200; reflexivity | reflexivity].
Defined.

(** ** What the validator stores *)

Lemma get_delete_inv {V} (m : JsMap.t V) k k' v :
  JsMap.wf m -> JsMap.get k (JsMap.delete k' m) = Some v -> JsMap.get k m = Some v.
Proof.
  intros Hwf H. destruct (string_dec k k') as [->|Hne].
  - rewrite JsMapFacts.get_delete_same in H by exact Hwf. discriminate.
  - now rewrite JsMapFacts.get_delete_other in H by exact Hne.
Qed.

Lemma get_evict_loop_inv sorted r : forall i c k v,
  JsMap.wf c ->
  JsMap.get k (fst (evict_loop sorted i r c)) = Some v -> JsMap.get k c = Some v.
Proof.
  induction r as [|r IH]; intros i c k v Hwf; simpl; [tauto|].
  destruct (nth_error sorted i) as [[k0 e0]|]; [|tauto].
  intros H. apply IH in H; [|now apply JsMapFacts.wf_delete].
  eapply get_delete_inv; eauto.
Qed.





(** A live entry under the digest of a token that is not locally expired
    is returned as it is, and the world stays as it is. *)
Lemma verifyOAuthToken_hit decode cfg env token w d info :
  domain_of cfg = Some d ->
  not_expired_locally decode (now env) token ->
  live_entry (now env) (hashToken token) (tokenCache w) info ->
  verifyOAuthToken decode cfg env token w = (Some info, w).
Proof.
  intros Hd Hne Hlive. unfold verifyOAuthToken. rewrite Hd.
  rewrite (expired_check_false _ _ _ Hne).
  apply cache_lookup_hit_iff in Hlive.
  destruct (cache_lookup _ _ _) as [[hit|] c1]; simpl in Hlive; congruence.
Qed.

(** With room in the cache, a validation that went to the provider and
    succeeded leaves its entry under the digest. *)
Lemma verifyOAuthToken_stores decode cfg env token w info :
  Z.of_nat (JsMap.size (tokenCache w)) < TOKEN_CACHE_MAX_SIZE cfg ->
  fst (verifyOAuthToken decode cfg env token w) = Some info ->
  userinfoCalls (snd (verifyOAuthToken decode cfg env token w)) <> userinfoCalls w ->
  JsMap.get (hashToken token) (tokenCache (snd (verifyOAuthToken decode cfg env token w)))
  = Some {| userInfo := info;
            expiry := match truthy_expiry (getTokenExpiry decode token) with
                      | Some x => Z.min (now env + TOKEN_CACHE_TTL cfg) x
                      | None => now env + TOKEN_CACHE_TTL cfg
                      end |}.
Proof.
  intros Hroom. unfold verifyOAuthToken.
  destruct (domain_of cfg) as [d|]; [|discriminate].
  destruct (match truthy_expiry _ with Some x => x <=? now env | None => false end);
    [discriminate|].
  pose proof (size_cache_lookup_le (now env) (hashToken token) (tokenCache w)) as Hsz.
  destruct (cache_lookup (now env) (hashToken token) (tokenCache w)) as [[hit|] c1];
    simpl in Hsz; [simpl; intros _ H; now contradiction H|].
  destruct (fetch env _ _) as [|[] st [body|]]; try discriminate.
  unfold cache_insert, enforce_limit.
  match goal with
  | |- context [JsMap.set ?k ?e c1] =>
      pose proof (size_set_le c1 k e) as Hset;
      destruct (Z.gtb_spec (Z.of_nat (JsMap.size (JsMap.set k e c1)))
                           (TOKEN_CACHE_MAX_SIZE cfg)) as [Hgt|_]; [lia|]
  end.
  destruct (user_label_throws body); try discriminate; simpl;
    intros [= <-] _; apply JsMapFacts.get_set_same.
Qed.

(** X6. Validate, then validate again: when a validation that asked the
    identity provider succeeded and the cache had room, validating the same
    token again before the TTL has passed (and before the token's own
    expiry) returns the same claims and leaves the world as it is, so no
    second request goes to the provider. *)
Theorem validate_then_revalidate decode cfg env1 env2 token w info :
  Z.of_nat (JsMap.size (tokenCache w)) < TOKEN_CACHE_MAX_SIZE cfg ->
  let r1 := verifyOAuthToken decode cfg env1 token w in
  fst r1 = Some info ->
  userinfoCalls (snd r1) <> userinfoCalls w ->
  now env1 <= now env2 < now env1 + TOKEN_CACHE_TTL cfg ->
  not_expired_locally decode (now env2) token ->
  verifyOAuthToken decode cfg env2 token (snd r1) = (Some info, snd r1).
Proof.
  intros Hroom r1 Hres Hcall Hwin Hne.
  destruct (verifyOAuthToken_some _ _ _ _ _ _ Hres) as [d [Hd _]].
  pose proof (verifyOAuthToken_stores _ _ _ _ _ _ Hroom Hres Hcall) as Hget.
  apply (verifyOAuthToken_hit decode cfg env2 token (snd r1) d info Hd Hne).
  eexists. split; [exact Hget|].
  destruct (getTokenExpiry decode token) as [x|] eqn:Hx.
  - rewrite (truthy_expiry_Some x (getTokenExpiry_nonzero _ _ _ Hx)).
    pose proof (Hne x Hx). lia.
  - simpl. lia.
Qed.

Lemma validate_then_revalidate_witness :
  let r1 := verifyOAuthToken Sample.decoder Sample.cfg (Sample.accepting 1000) "tokA"
                             initial_world in
  verifyOAuthToken Sample.decoder Sample.cfg (Sample.rejecting 2000) "tokA" (snd r1)
  = (Some Sample.alice, snd r1).
Proof.
  intros r1.
  apply (validate_then_revalidate Sample.decoder Sample.cfg (Sample.accepting 1000)
           (Sample.rejecting 2000) "tokA" initial_world Sample.alice).
  - simpl. lia.
  - vm_compute. reflexivity.
  - vm_compute. discriminate.
  - simpl. lia.
  - intros e He. vm_compute in He. discriminate He.
Defined.

(** ** The cache along a run *)

Lemma verifyOAuthToken_size decode cfg env token w :
  0 <= TOKEN_CACHE_MAX_SIZE cfg ->
  JsMap.wf (tokenCache w) ->
  Z.of_nat (JsMap.size (tokenCache w)) <= TOKEN_CACHE_MAX_SIZE cfg ->
  Z.of_nat (JsMap.size (tokenCache (snd (verifyOAuthToken decode cfg env token w))))
  <= TOKEN_CACHE_MAX_SIZE cfg.
Proof.
  intros HN Hwf Hsz. unfold verifyOAuthToken.
  destruct (domain_of cfg) as [d|]; [|exact Hsz].
  destruct (match truthy_expiry _ with Some x => x <=? now env | None => false end).
  { simpl. pose proof (size_delete_le (tokenCache w) (hashToken token)). lia. }
  pose proof (size_cache_lookup_le (now env) (hashToken token) (tokenCache w)) as Hl.
  pose proof (wf_cache_lookup (now env) (hashToken token) (tokenCache w) Hwf) as Hwf1.
  destruct (cache_lookup (now env) (hashToken token) (tokenCache w)) as [[hit|] c1];
    simpl in *; [exact Hsz|].
  destruct (fetch env _ _) as [|[] st [info|]]; simpl; try lia.
  destruct (user_label_throws info); simpl; try lia;
    match goal with
    | |- context [cache_insert ?N ?k ?e ?c] =>
        destruct (cache_insert_no_fault N k e c HN Hwf1) as [_ Hb];
        destruct (cache_insert N k e c) as [c2 []]; simpl in *; exact Hb
    end.
Qed.

Lemma verifyOAuthToken_wf decode cfg env token w :
  JsMap.wf (tokenCache w) ->
  JsMap.wf (tokenCache (snd (verifyOAuthToken decode cfg env token w))).
Proof.
  intros Hwf. unfold verifyOAuthToken.
  destruct (domain_of cfg) as [d|]; [|exact Hwf].
  destruct (match truthy_expiry _ with Some x => x <=? now env | None => false end).
  { now apply JsMapFacts.wf_delete. }
  pose proof (wf_cache_lookup (now env) (hashToken token) (tokenCache w) Hwf) as Hl.
  destruct (cache_lookup _ _ _) as [[hit|] c1]; simpl in *; [exact Hwf|].
  destruct (fetch env _ _) as [|[] st [info|]]; simpl; try exact Hl.
  destruct (user_label_throws info); simpl; try exact Hl;
    match goal with
    | |- context [cache_insert ?N ?k ?e ?c] =>
        pose proof (wf_cache_insert N k e c Hl) as Hi;
        destruct (cache_insert N k e c) as [c2 []]; exact Hi
    end.
Qed.

(** X7. With a bound [N >= 0], the cache never holds more than [N]
    entries and its keys stay distinct, from the start of the process
    through any sequence of validations. *)
Theorem cache_never_exceeds_bound decode cfg calls :
  0 <= TOKEN_CACHE_MAX_SIZE cfg ->
  let w := verify_all decode cfg calls initial_world in
  JsMap.wf (tokenCache w)
  /\ Z.of_nat (JsMap.size (tokenCache w)) <= TOKEN_CACHE_MAX_SIZE cfg.
Proof.
  intros HN.
  assert (Hgen : forall w0,
            JsMap.wf (tokenCache w0) ->
            Z.of_nat (JsMap.size (tokenCache w0)) <= TOKEN_CACHE_MAX_SIZE cfg ->
            JsMap.wf (tokenCache (verify_all decode cfg calls w0))
            /\ Z.of_nat (JsMap.size (tokenCache (verify_all decode cfg calls w0)))
               <= TOKEN_CACHE_MAX_SIZE cfg).
  { induction calls as [|[env token] calls IH]; intros w0 Hwf Hsz; simpl; [auto|].
    apply IH.
    - now apply verifyOAuthToken_wf.
    - now apply verifyOAuthToken_size. }
  apply Hgen; [constructor | simpl; lia].
Qed.

Lemma cache_never_exceeds_bound_witness :
  let w := verify_all Sample.decoder Sample.cfg
             [(Sample.accepting 1000, "t1"); (Sample.accepting 1001, "t2");
              (Sample.accepting 1002, "t3")] initial_world in
  Z.of_nat (JsMap.size (tokenCache w)) <= TOKEN_CACHE_MAX_SIZE Sample.cfg.
Proof.
  intros w.
  assert (HN : 0 <= TOKEN_CACHE_MAX_SIZE Sample.cfg) by (simpl; lia).
  exact (proj2 (cache_never_exceeds_bound Sample.decoder Sample.cfg
                  [(Sample.accepting 1000, "t1"); (Sample.accepting 1001, "t2");
                   (Sample.accepting 1002, "t3")] HN)).
Defined.

(** X8. A negative bound locks every client out: from the start of the
    process, whatever was validated before and whatever the identity
    provider answers, the validator returns no claims and the cache stays
    empty (the eviction loop runs past the end of the sorted entries and
    the fault is caught as a failed validation). *)
Theorem negative_bound_locks_out decode cfg calls env token :
  TOKEN_CACHE_MAX_SIZE cfg < 0 ->
  let w := verify_all decode cfg calls initial_world in
  tokenCache w = []
  /\ fst (verifyOAuthToken decode cfg env token w) = None.
Proof.
  intros HN.
  assert (Hstep : forall env0 token0 w0,
            tokenCache w0 = [] ->
            fst (verifyOAuthToken decode cfg env0 token0 w0) = None
            /\ tokenCache (snd (verifyOAuthToken decode cfg env0 token0 w0)) = []).
  { intros env0 token0 w0 Hc. unfold verifyOAuthToken.
    generalize (hashToken token0). intros k.
    destruct (domain_of cfg) as [d|]; [|auto].
    destruct (match truthy_expiry _ with Some x => x <=? now env0 | None => false end).
    { simpl. rewrite Hc. auto. }
    rewrite Hc. unfold cache_lookup. simpl.
    destruct (fetch env0 _ _) as [|[] st [info|]]; simpl; auto.
    unfold cache_insert, enforce_limit. simpl JsMap.set. simpl JsMap.size.
    destruct (Z.gtb_spec (Z.of_nat 1) (TOKEN_CACHE_MAX_SIZE cfg)) as [_|Hle]; [|lia].
    destruct (Z.to_nat (Z.of_nat 1 - TOKEN_CACHE_MAX_SIZE cfg)) as [|[|n]] eqn:En;
      try lia.
    simpl. rewrite String.eqb_refl. simpl.
    destruct (user_label_throws info); simpl; auto. }
  assert (Hgen : forall w0, tokenCache w0 = [] ->
                            tokenCache (verify_all decode cfg calls w0) = []).
  { induction calls as [|[env0 token0] calls IH]; intros w0 Hc; simpl; [exact Hc|].
    apply IH. now apply Hstep. }
  intros w. split.
  - now apply Hgen.
  - apply Hstep. now apply Hgen.
Qed.

Lemma negative_bound_locks_out_witness :
  let cfg := {| AUTH0_DOMAIN := Some "idp.example";
                MCP_SERVER_URL := "https://gw.example";
                TOKEN_CACHE_TTL := 120000;
                TOKEN_CACHE_MAX_SIZE := -1 |} in
  fst (verifyOAuthToken Sample.decoder cfg (Sample.accepting 1000) "tokA"
                        (verify_all Sample.decoder cfg [] initial_world)) = None.
Proof.
  intros cfg.
  assert (HN : TOKEN_CACHE_MAX_SIZE cfg < 0) by (simpl; lia).
  exact (proj2 (negative_bound_locks_out Sample.decoder cfg [] (Sample.accepting 1000)
                  "tokA" HN)).
Defined.

(** ** What the gate lets through, answers and sends *)

(** X9. A request under [/mcp] that is not exempt passes the gate only
    with a credential that stands: the domain is configured, the credential
    is not empty and not locally expired, and truthy claims for it come
    from a live cache entry under its digest or from a successful answer of
    the identity provider. *)
Theorem gate_lets_through_only_valid decode cfg env req w :
  is_exempt req = false ->
  JsString.startsWith (path req) "/mcp" = true ->
  fst (authMiddleware decode cfg env req w) = Next ->
  exists d info,
    domain_of cfg = Some d
    /\ bearer_token req <> EmptyString
    /\ Js.truthy info = true
    /\ not_expired_locally decode (now env) (bearer_token req)
    /\ (live_entry (now env) (hashToken (bearer_token req)) (tokenCache w) info
        \/ provider_accepts env d (bearer_token req) info).
Proof.
  intros He Hp. unfold authMiddleware. rewrite He, Hp.
  destruct (domain_of cfg) as [d|] eqn:Hd; [|discriminate].
  destruct (bearer_token req) as [|c t] eqn:Ht; [discriminate|].
  simpl negb. cbv iota.
  destruct (verifyOAuthToken decode cfg env (String c t) w) as [[info|] w'] eqn:Ev;
    [|discriminate].
  destruct (Js.truthy info) eqn:Htr; [|discriminate].
  intros _.
  assert (Hres : fst (verifyOAuthToken decode cfg env (String c t) w) = Some info)
    by (rewrite Ev; reflexivity).
  destruct (verifyOAuthToken_some _ _ _ _ _ _ Hres) as [d' [Hd' [Hne Hdoor]]].
  rewrite Hd in Hd'. inversion Hd'; subst d'.
  exists d, info. split; [reflexivity|]. split; [discriminate|].
  split; [exact Htr|]. split; [exact Hne|].
  destruct Hdoor as [[Hlive _]|[_ [Hacc _]]];
    [left; assumption | right; now apply provider_vouches_accepts].
Qed.

Lemma gate_lets_through_only_valid_witness :
  let req := Sample.request "POST" "/mcp" (Some "Bearer tokA") None Sample.initialize in
  exists d info,
    domain_of Sample.cfg = Some d
    /\ bearer_token req <> EmptyString
    /\ Js.truthy info = true
    /\ not_expired_locally Sample.decoder 1000 (bearer_token req)
    /\ (live_entry 1000 (hashToken (bearer_token req)) [] info
        \/ provider_accepts (Sample.accepting 1000) d (bearer_token req) info).
Proof.
  intros req.
  apply (gate_lets_through_only_valid Sample.decoder Sample.cfg (Sample.accepting 1000)
           req initial_world); vm_compute; reflexivity.
Defined.

Lemma challenge_invalid_token_metadata cfg :
  challenge_invalid_token cfg
  = (realm cfg ++ ", error=" ++ JsString.dquote ++ "invalid_token" ++ JsString.dquote
       ++ ", ") ++ resource_metadata cfg.
Proof.
  unfold challenge_invalid_token.
  rewrite !string_append_assoc. reflexivity.
Qed.

(** X10. The gate answers by itself in two ways only: 500 with no
    challenge, when the identity-provider domain is not configured, and 401
    with one [WWW-Authenticate] header that starts with the Bearer realm and
    ends with the pointer to the protected-resource metadata document. *)
Theorem gate_response_shape decode cfg env req w st hs text :
  fst (authMiddleware decode cfg env req w) = Respond st hs text ->
  (st = 500 /\ hs = [] /\ domain_of cfg = None)
  \/ (st = 401
      /\ exists mid, hs = [("WWW-Authenticate",
                            realm cfg ++ mid ++ resource_metadata cfg)]).
Proof.
  unfold authMiddleware.
  destruct (is_exempt req); [discriminate|].
  destruct (JsString.startsWith (path req) "/mcp"); [|discriminate].
  destruct (domain_of cfg) as [d|].
  - assert (Hno : challenge_no_token cfg
                  = realm cfg ++ ", " ++ resource_metadata cfg) by reflexivity.
    assert (Hinv : challenge_invalid_token cfg
                   = realm cfg ++ (", error=" ++ JsString.dquote ++ "invalid_token"
                                   ++ JsString.dquote ++ ", ")
                     ++ resource_metadata cfg).
    { rewrite challenge_invalid_token_metadata.
      rewrite !string_append_assoc. reflexivity. }
    destruct (negb (JsString.truthy (bearer_token req))).
    + simpl. intros [= <- <- _]. right. split; [reflexivity|].
      exists ", ". now rewrite Hno.
    + destruct (verifyOAuthToken _ _ _ _ _) as [[info|] w'];
        [destruct (Js.truthy info); [discriminate|]|];
        simpl; intros [= <- <- _]; right; (split; [reflexivity|]);
        eexists; rewrite Hinv; reflexivity.
  - simpl. intros [= <- <- _]. left. auto.
Qed.

Lemma gate_response_shape_witness :
  exists mid, [("WWW-Authenticate", challenge_no_token Sample.cfg)]
              = [("WWW-Authenticate",
                  realm Sample.cfg ++ mid ++ resource_metadata Sample.cfg)].
Proof.
  destruct (gate_response_shape Sample.decoder Sample.cfg (Sample.accepting 1000)
              (Sample.request "POST" "/mcp" None None Sample.initialize)
              initial_world 401
              [("WWW-Authenticate", challenge_no_token Sample.cfg)]
              "Unauthorized - No token" eq_refl)
    as [[H _]|[_ H]]; [discriminate H | exact H].
Defined.

(** X11. Whenever the gate causes a request to the identity provider, it
    is one request, to the userinfo endpoint of the configured domain, for
    a protected route, and the token it carries is the credential of the
    request: not empty, with no white space at either end. *)
Theorem gate_sends_clean_tokens decode cfg env req w :
  let w' := snd (authMiddleware decode cfg env req w) in
  userinfoCalls w' <> userinfoCalls w ->
  exists d,
    domain_of cfg = Some d
    /\ is_exempt req = false
    /\ JsString.startsWith (path req) "/mcp" = true
    /\ userinfoCalls w'
       = (userinfoCalls w
          ++ [(userinfoUrl d, ("Bearer " ++ bearer_token req)%string)])%list
    /\ bearer_token req <> EmptyString
    /\ clean_ends (bearer_token req) = true.
Proof.
  unfold authMiddleware.
  destruct (is_exempt req); [simpl; intros H; now contradiction H|].
  destruct (JsString.startsWith (path req) "/mcp");
    [|simpl; intros H; now contradiction H].
  destruct (domain_of cfg) as [d|] eqn:Hd; [|simpl; intros H; now contradiction H].
  destruct (bearer_token req) as [|c t] eqn:Ht;
    [simpl; intros H; now contradiction H|].
  simpl negb. cbv iota.
  pose proof (verifyOAuthToken_calls decode cfg env (String c t) w d Hd) as Hcalls.
  simpl in Hcalls.
  assert (Hclean : clean_ends (String c t) = true)
    by (rewrite <- Ht; apply trim_clean_ends).
  destruct (verifyOAuthToken decode cfg env (String c t) w) as [[info|] w'];
    [destruct (Js.truthy info)|]; simpl in *; intros Hne;
    (destruct Hcalls as [Hsame|Hnew]; [contradiction|]);
    exists d; repeat split; try assumption; discriminate.
Qed.

Lemma gate_sends_clean_tokens_witness :
  let req := Sample.request "POST" "/mcp" (Some "  Bearer  tokA  ") None Sample.initialize in
  exists d, domain_of Sample.cfg = Some d
            /\ bearer_token req <> EmptyString
            /\ clean_ends (bearer_token req) = true.
Proof.
  intros req.
  destruct (gate_sends_clean_tokens Sample.decoder Sample.cfg (Sample.accepting 1000)
              req initial_world ltac:(vm_compute; discriminate))
    as [d [Hd [_ [_ [_ [Hne Hc]]]]]].
  exists d. auto.
Defined.

(** ** The health report *)

Lemma length_filter_map {A B} (f : B -> bool) (g : A -> B) (l : list A) :
  List.length (filter f (map g l)) = List.length (filter (fun x => f (g x)) l).
Proof.
  induction l as [|x l IH]; simpl; [reflexivity|].
  destruct (f (g x)); simpl; now rewrite IH.
Qed.

Lemma filter_all_length {A} (f : A -> bool) (l : list A) :
  List.length (filter f l) = List.length l <-> forall x, In x l -> f x = true.
Proof.
  induction l as [|x l IH]; simpl.
  - split; [intros _ y [] | reflexivity].
  - pose proof (filter_length_le f l) as Hle.
    destruct (f x) eqn:Hx; simpl.
    + split.
      * intros H y [<-|Hy]; [exact Hx|]. apply IH; [lia | exact Hy].
      * intros H. f_equal. apply IH. auto.
    + split; [lia|]. intros H. specialize (H x (or_introl eq_refl)). congruence.
Qed.

Lemma is_hit_entry t (c : TokenCache) x :
  JsMap.wf c -> In x c -> is_hit t c (fst x) = (t <? expiry (snd x)).
Proof.
  intros Hwf Hin. destruct x as [k e]. unfold is_hit, cache_lookup. simpl.
  rewrite (JsMapFacts.In_get c k e Hwf Hin).
  destruct (t <? expiry e); reflexivity.
Qed.

(** X12. In the health report, [active] is never more than [size]; it
    counts exactly the keys on which the validator's cache read would hit
    at that instant; and it equals [size] exactly when no stored entry has
    expired. *)
Theorem health_counts cfg t (c : TokenCache) :
  JsMap.wf c ->
  let stats := Health.token_cache (Health.get_health cfg t c) in
  0 <= Health.active stats <= Health.size stats
  /\ Health.active stats
     = Z.of_nat (List.length (filter (is_hit t c) (JsMap.keys c)))
  /\ (Health.active stats = Health.size stats
      <-> forall k e, In (k, e) c -> t < expiry e).
Proof.
  intros Hwf stats. subst stats. simpl.
  unfold Health.activeTokens, JsMap.keys, JsMap.size.
  rewrite !length_filter_map.
  split; [|split].
  - pose proof (filter_length_le (fun x : string * CacheEntry => t <? expiry (snd x)) c).
    lia.
  - f_equal. f_equal. apply filter_ext_in.
    intros x Hx. symmetry. now apply is_hit_entry.
  - rewrite Nat2Z.inj_iff, filter_all_length. split.
    + intros H k e Hin. specialize (H (k, e) Hin). simpl in H.
      now apply Z.ltb_lt.
    + intros H [k e] Hin. simpl. apply Z.ltb_lt. eauto.
Qed.

Lemma health_counts_witness :
  let c := [("d1", Sample.entry Sample.alice 50); ("d2", Sample.entry Sample.bob 30)] in
  let stats := Health.token_cache (Health.get_health Sample.cfg 40 c) in
  0 <= Health.active stats <= Health.size stats.
Proof.
  intros c stats.
  assert (Hwf : JsMap.wf c) by solve_wf.
  exact (proj1 (health_counts Sample.cfg 40 c Hwf)).
Defined.

(** ** The discovery documents *)

(** X13. The discovery routes are open and never fail: a request to any
    of them passes the gate untouched whatever its method and Authorization
    header, and the route answers with a JSON document, or with 501 "not
    configured", which is the answer of every one of them when no
    identity-provider domain is set. *)
Theorem discovery_is_open decode cfg clientId env req w reply :
  In (path req, reply) (Discovery.routes cfg clientId) ->
  authMiddleware decode cfg env req w = (Next, w)
  /\ (reply = Discovery.SendText 501 "OAuth not configured on this server"
      \/ exists doc, reply = Discovery.SendJson doc)
  /\ (domain_of cfg = None ->
      reply = Discovery.SendText 501 "OAuth not configured on this server").
Proof.
  intros Hin.
  assert (Hex : is_exempt req = true).
  { assert (Hpre : String.prefix "/.well-known/" (path req) = true).
    { simpl in Hin.
      destruct Hin as [H|[H|[H|[H|[H|[]]]]]]; inversion H as [[Hp Hr]];
        reflexivity. }
    unfold is_exempt, JsString.startsWith. rewrite Hpre.
    now rewrite orb_true_r. }
  split; [unfold authMiddleware; now rewrite Hex|].
  assert (Hreply : reply = Discovery.mcp_oauth cfg clientId
                   \/ reply = Discovery.authorization_server cfg
                   \/ reply = Discovery.protected_resource cfg).
  { simpl in Hin.
    destruct Hin as [H|[H|[H|[H|[H|[]]]]]]; inversion H; auto. }
  unfold Discovery.mcp_oauth, Discovery.authorization_server,
    Discovery.protected_resource, Discovery.not_configured in Hreply.
  destruct (domain_of cfg) as [d|].
  - split; [|discriminate].
    destruct Hreply as [ -> | [ -> | -> ] ]; eauto.
    destruct (negb (header_truthy clientId)); eauto.
  - split; [|intros _]; destruct Hreply as [ -> | [ -> | -> ] ]; auto.
Qed.

Lemma discovery_is_open_witness :
  let req := Sample.request "GET" "/.well-known/oauth-protected-resource"
                            (Some "Bearer junk") None JNull in
  authMiddleware Sample.decoder Sample.unconfigured (Sample.rejecting 1000) req
                 initial_world = (Next, initial_world).
Proof.
  intros req.
  refine (proj1 (discovery_is_open Sample.decoder Sample.unconfigured None
                   (Sample.rejecting 1000) req initial_world
                   (Discovery.protected_resource Sample.unconfigured) _)).
  simpl. auto 6.
Defined.

(** X14. With the domain configured, the documents agree with each other
    and with the challenge: the protected-resource document names the
    gateway URL as its resource and lists as its one authorization server
    the issuer of the authorization-server document; both token endpoints
    are the same; and the document a 401 points to is a served route. *)
Theorem discovery_documents_agree cfg clientId d cid :
  domain_of cfg = Some d ->
  clientId = Some cid -> cid <> EmptyString ->
  exists pr az mo issuer token_endpoint,
    Discovery.protected_resource cfg = Discovery.SendJson pr
    /\ Discovery.authorization_server cfg = Discovery.SendJson az
    /\ Discovery.mcp_oauth cfg clientId = Discovery.SendJson mo
    /\ Js.prop "resource" pr = Js.Value (JStr (MCP_SERVER_URL cfg))
    /\ Js.prop "authorization_servers" pr = Js.Value (JArr [issuer])
    /\ Js.prop "issuer" az = Js.Value issuer
    /\ Js.prop "token_endpoint" az = Js.Value token_endpoint
    /\ Js.prop "tokenEndpoint" mo = Js.Value token_endpoint
    /\ Js.prop "clientId" mo = Js.Value (JStr cid)
    /\ (exists p, In (p, Discovery.protected_resource cfg)
                     (Discovery.routes cfg clientId)
                  /\ resource_metadata cfg
                     = "resource_metadata=" ++ JsString.dquote
                       ++ MCP_SERVER_URL cfg ++ p ++ JsString.dquote).
Proof.
  intros Hd -> Hcid.
  unfold Discovery.protected_resource, Discovery.authorization_server,
    Discovery.mcp_oauth. rewrite Hd.
  assert (Ht : header_truthy (Some cid) = true)
    by (destruct cid; [contradiction Hcid; reflexivity | reflexivity]).
  rewrite Ht. simpl negb. cbv iota.
  do 3 eexists. exists (JStr ("https://" ++ d ++ "/")).
  exists (JStr ("https://" ++ d ++ "/oauth/token")).
  repeat (split; [reflexivity|]).
  exists "/.well-known/oauth-protected-resource". split.
  - unfold Discovery.routes, Discovery.protected_resource. rewrite Hd.
    simpl. auto 6.
  - reflexivity.
Qed.

Lemma discovery_documents_agree_witness :
  exists pr issuer,
    Discovery.protected_resource Sample.cfg = Discovery.SendJson pr
    /\ Js.prop "authorization_servers" pr = Js.Value (JArr [issuer]).
Proof.
  destruct (discovery_documents_agree Sample.cfg (Some "client-1") "idp.example"
              "client-1" eq_refl eq_refl ltac:(discriminate))
    as [pr [az [mo [issuer [te [H1 [_ [_ [_ [H5 _]]]]]]]]]].
  exists pr, issuer. auto.
Defined.

(** ** The life of a session *)

Lemma get_set_other {V} (m : JsMap.t V) k k' v :
  k' <> k -> JsMap.get k' (JsMap.set k v m) = JsMap.get k' m.
Proof.
  intros Hne. induction m as [|[k0 v0] m IH]; simpl.
  - destruct (String.eqb_spec k' k); [contradiction | reflexivity].
  - destruct (String.eqb_spec k k0) as [->|Hk]; simpl.
    + destruct (String.eqb_spec k' k0); [contradiction | reflexivity].
    + now rewrite IH.
Qed.

(** X15. Once the library has reported a session id, POST and GET
    requests carrying it reach that session's transport, whatever the POST
    body is; once the transport's close callback has run, the same POST is
    answered 400 with code -32000 and the same GET 400; and neither step
    touches any other session. *)
Theorem session_lifecycle isInit run (reg : Registry) sid t req :
  JsMap.wf reg ->
  sid <> EmptyString ->
  mcp_session_id req = Some sid ->
  let live := onsessioninitialized sid t reg in
  let closed := onclose (Some sid) live in
  post_mcp isInit run req live
  = match run (Some t) with
    | Served => ByTransport t
    | Threw false => internal_error
    | Threw true => Unanswered
    end
  /\ get_mcp req live = ByTransport t
  /\ post_mcp isInit run req closed = bad_session
  /\ get_mcp req closed = Reply 400 (Text "Invalid or missing session ID")
  /\ (forall other, other <> sid ->
        JsMap.get other live = JsMap.get other reg
        /\ JsMap.get other closed = JsMap.get other reg).
Proof.
  intros Hwf Hsid Hreq live closed.
  assert (Htruthy : header_truthy (Some sid) = true)
    by (destruct sid; [contradiction Hsid; reflexivity | reflexivity]).
  assert (Hlive : JsMap.get sid live = Some t) by apply JsMapFacts.get_set_same.
  assert (Hwfl : JsMap.wf live) by (apply JsMapFacts.wf_set, Hwf).
  assert (Hclosed : closed = JsMap.delete sid live).
  { unfold closed, onclose. simpl header_text. rewrite Htruthy.
    unfold JsMap.has. now rewrite Hlive. }
  assert (Hgone : JsMap.get sid closed = None)
    by (rewrite Hclosed; now apply JsMapFacts.get_delete_same).
  split; [|split; [|split; [|split]]].
  - unfold post_mcp. rewrite Hreq. simpl header_text. rewrite Htruthy.
    unfold JsMap.has. rewrite Hlive. reflexivity.
  - unfold get_mcp. rewrite Hreq. simpl header_text. rewrite Htruthy.
    unfold JsMap.has. rewrite Hlive. reflexivity.
  - unfold post_mcp. rewrite Hreq. simpl header_text. rewrite Htruthy.
    unfold JsMap.has. rewrite Hgone. reflexivity.
  - unfold get_mcp. rewrite Hreq. simpl header_text. rewrite Htruthy.
    unfold JsMap.has. rewrite Hgone. reflexivity.
  - intros other Hne.
    assert (Hl : JsMap.get other live = JsMap.get other reg)
      by (apply get_set_other; exact Hne).
    split; [exact Hl|].
    rewrite Hclosed, JsMapFacts.get_delete_other by exact Hne. exact Hl.
Qed.

Lemma session_lifecycle_witness :
  let req := Sample.request "POST" "/mcp" (Some "Bearer t") (Some "s2") Sample.initialize in
  let live := onsessioninitialized "s2" 8%nat [("s1", 7%nat)] in
  get_mcp req live = ByTransport 8%nat
  /\ post_mcp Sample.isInitialize Sample.serving req (onclose (Some "s2") live)
     = bad_session.
Proof.
  intros req live.
  assert (Hwf : JsMap.wf (V := Transport) [("s1", 7%nat)]) by solve_wf.
  destruct (session_lifecycle Sample.isInitialize Sample.serving [("s1", 7%nat)]
              "s2" 8%nat req Hwf ltac:(discriminate) eq_refl)
    as [_ [Hget [Hpost _]]].
  split; assumption.
Defined.

(** ** Shutdown *)

Lemma delete_middle {V} (pre rest : JsMap.t V) k v :
  ~ In k (JsMap.keys pre) ->
  JsMap.delete k (pre ++ (k, v) :: rest)%list = (pre ++ rest)%list.
Proof.
  induction pre as [|[k0 v0] pre IH]; simpl; intros Hnot.
  - now rewrite String.eqb_refl.
  - destruct (String.eqb_spec k k0) as [->|Hne]; [tauto|].
    f_equal. apply IH. tauto.
Qed.

Lemma keys_app {V} (a b : JsMap.t V) :
  JsMap.keys (a ++ b)%list = (JsMap.keys a ++ JsMap.keys b)%list.
Proof. apply map_app. Qed.

Lemma shutdown_loop_spec close : forall pending pre,
  JsMap.wf (pre ++ pending)%list ->
  (forall sid t, In (sid, t) pending -> sid <> EmptyString) ->
  shutdown_loop close pending (pre ++ pending)%list
  = (map snd pending,
     (pre ++ filter (fun x => closeThrew (close (snd x))
                              && negb (oncloseRan (close (snd x)))) pending)%list).
Proof.
  induction pending as [|[sid t] rest IH]; intros pre Hwf Hids.
  - reflexivity.
  - cbn [shutdown_loop map filter snd].
    assert (Hsid : sid <> EmptyString) by (apply (Hids sid t); now left).
    assert (Htruthy : header_truthy (Some sid) = true)
      by (destruct sid; [contradiction Hsid; reflexivity | reflexivity]).
    unfold JsMap.wf in Hwf. rewrite keys_app in Hwf. simpl in Hwf.
    pose proof (NoDup_remove_1 _ _ _ Hwf) as Hnd.
    pose proof (NoDup_remove_2 _ _ _ Hwf) as Hnotin.
    assert (Hpre : ~ In sid (JsMap.keys pre))
      by (intros H; apply Hnotin; apply in_or_app; now left).
    assert (Habs : ~ In sid (JsMap.keys (pre ++ rest)%list))
      by (rewrite keys_app; exact Hnotin).
    assert (Hhas : JsMap.has sid (pre ++ (sid, t) :: rest)%list = true).
    { apply JsMapFacts.has_keys. rewrite keys_app. apply in_or_app.
      right. now left. }
    assert (Hclose : onclose (Some sid) (pre ++ (sid, t) :: rest)%list = (pre ++ rest)%list).
    { unfold onclose. simpl header_text. rewrite Htruthy, Hhas. simpl.
      now apply delete_middle. }
    assert (Hrest : forall s0 t0, In (s0, t0) rest -> s0 <> EmptyString)
      by (intros s0 t0 H0; apply (Hids s0 t0); now right).
    assert (Hwfrest : JsMap.wf (pre ++ rest)%list)
      by (unfold JsMap.wf; rewrite keys_app; exact Hnd).
    destruct (close t) as [threw ran]; simpl.
    destruct ran, threw; simpl.
    + rewrite Hclose, (IH pre Hwfrest Hrest). reflexivity.
    + rewrite Hclose, (JsMapFacts.delete_absent _ _ Habs),
        (IH pre Hwfrest Hrest). reflexivity.
    + replace (pre ++ (sid, t) :: rest)%list with ((pre ++ [(sid, t)]) ++ rest)%list
        by (rewrite <- app_assoc; reflexivity).
      rewrite IH; [rewrite <- app_assoc; reflexivity | | exact Hrest].
      unfold JsMap.wf. rewrite <- app_assoc, keys_app. simpl. exact Hwf.
    + rewrite (delete_middle pre rest sid t Hpre), (IH pre Hwfrest Hrest).
      reflexivity.
Qed.

(** X16. Shutdown calls close once on every registered transport, in
    registration order; what stays in the registry are exactly the sessions
    whose close threw before the close callback ran, so the registry is
    empty afterwards when no close throws. *)
Theorem shutdown_closes_every_transport close (reg : Registry) :
  JsMap.wf reg ->
  (forall sid t, In (sid, t) reg -> sid <> EmptyString) ->
  fst (shutdown close reg) = map snd reg
  /\ snd (shutdown close reg)
     = filter (fun x => closeThrew (close (snd x))
                        && negb (oncloseRan (close (snd x)))) reg
  /\ ((forall t, closeThrew (close t) = false) -> snd (shutdown close reg) = []).
Proof.
  intros Hwf Hids. unfold shutdown.
  pose proof (shutdown_loop_spec close reg [] Hwf Hids) as Hspec.
  simpl in Hspec. rewrite Hspec. simpl.
  split; [reflexivity|]. split; [reflexivity|].
  intros Hok.
  assert (Hnone : forall l : Registry,
            filter (fun x => closeThrew (close (snd x))
                             && negb (oncloseRan (close (snd x)))) l = []).
  { induction l as [|x l IHl]; simpl; [reflexivity|]. now rewrite Hok. }
  apply Hnone.
Qed.

Lemma shutdown_closes_every_transport_witness :
  let reg : Registry := [("s1", 7%nat); ("s2", 8%nat)] in
  let close := fun t : Transport =>
                 {| closeThrew := Nat.eqb t 8; oncloseRan := false |} in
  fst (shutdown close reg) = [7%nat; 8%nat]
  /\ snd (shutdown close reg) = [("s2", 8%nat)].
Proof.
  intros reg close.
  assert (Hwf : JsMap.wf reg) by solve_wf.
  assert (Hids : forall sid t, In (sid, t) reg -> sid <> EmptyString).
  { intros sid t [H|[H|[]]]; inversion H; discriminate. }
  destruct (shutdown_closes_every_transport close reg Hwf Hids) as [H1 [H2 _]].
  split; [exact H1 | exact H2].
Defined.

(** ** Failures of a GraphQL request *)

Lemma includes_prefix s sub : String.prefix sub s = true -> Graphql.includes s sub = true.
Proof. intros H. destruct s; simpl in *; now rewrite H. Qed.

Lemma includes_append m post : forall pre,
  Graphql.includes (pre ++ m ++ post) m = true.
Proof.
  induction pre as [|c pre IH].
  - change (Graphql.includes (m ++ post) m = true).
    apply includes_prefix. apply prefix_append.
  - simpl append. simpl Graphql.includes.
    match goal with
    | |- (if ?b then _ else _) = _ => destruct b; [reflexivity | exact IH]
    end.
Qed.

Lemma string_append_nil_r (s : string) : s ++ EmptyString = s.
Proof. induction s as [|c s IH]; simpl; [reflexivity | now rewrite IH]. Qed.

Lemma concat_In sep (l : list string) x :
  In x l -> exists pre post, String.concat sep l = pre ++ x ++ post.
Proof.
  induction l as [|y l IH]; [intros []|].
  intros [->|Hin].
  - destruct l as [|z l].
    + exists EmptyString, EmptyString. simpl. now rewrite string_append_nil_r.
    + exists EmptyString, (sep ++ String.concat sep (z :: l)). reflexivity.
  - destruct (IH Hin) as [pre [post Hc]].
    destruct l as [|z l]; [destruct Hin|].
    exists (y ++ sep ++ pre), post.
    change (String.concat sep (y :: z :: l))
      with (y ++ sep ++ String.concat sep (z :: l)).
    rewrite Hc, !string_append_assoc. reflexivity.
Qed.

Lemma joined_messages_includes errors e m :
  In e errors -> Graphql.err_message e = Some m ->
  exists pre post, Graphql.joined_messages errors = pre ++ m ++ post.
Proof.
  intros Hin Hm. unfold Graphql.joined_messages.
  apply concat_In. apply in_map_iff. exists e. split; [|exact Hin].
  now rewrite Hm.
Qed.

(** X17. What a caller of [executeWithTimeout] can get: the result of a
    fulfilled request as it is; any failure other than a GraphQL client
    error as it is (the timeout among them); and for a client error a new
    error, never the client error itself, whose text starts with
    "Permission denied: " exactly when one of the GraphQL errors looks like
    a permission problem and with "GraphQL error: " otherwise, and contains
    the message of every GraphQL error of the response. *)
Theorem executeWithTimeout_outcomes {T : Type} (settled : Graphql.Settled T) :
  match Graphql.executeWithTimeout settled with
  | inl result => settled = Graphql.Fulfilled result
  | inr (Graphql.Rethrown error) =>
      settled = Graphql.Rejected error
      /\ exists text, error = Graphql.OtherError text
  | inr (Graphql.NewError text) =>
      exists response_errors st,
        settled = Graphql.Rejected (Graphql.ClientError response_errors st)
        /\ let errors := match response_errors with Some es => es | None => [] end in
           (forall e m, In e errors -> Graphql.err_message e = Some m ->
                        Graphql.includes text m = true)
           /\ (String.prefix "Permission denied: " text
               = existsb Graphql.is_permission_error errors)
           /\ (String.prefix "GraphQL error: " text
               = negb (existsb Graphql.is_permission_error errors))
  end.
Proof.
  destruct settled as [result|[response_errors st|text]]; simpl; auto.
  - set (errors := match response_errors with Some es => es | None => [] end).
    destruct (existsb Graphql.is_permission_error errors) eqn:Hperm.
    + exists response_errors, st. split; [reflexivity|]. fold errors.
      split; [|split; [rewrite Hperm; reflexivity | rewrite Hperm; reflexivity]].
      intros e m Hin Hm.
      destruct (joined_messages_includes errors e m Hin Hm) as [pre [post Hj]].
      unfold Graphql.permission_denied. rewrite Hj.
      set (head := "Permission denied: Your Shopify app may be missing required API scopes. ").
      set (tail := ". " ++ "Please check your app's API scopes in Shopify Admin Settings > Apps and sales channels > [Your App] > Configuration.").
      replace (head ++ "Error: " ++ (pre ++ m ++ post) ++ tail)
        with ((head ++ "Error: " ++ pre) ++ m ++ (post ++ tail))
        by (rewrite !string_append_assoc; reflexivity).
      apply includes_append.
    + exists response_errors, st. split; [reflexivity|]. fold errors.
      split; [|split; [rewrite Hperm; reflexivity
                      | rewrite Hperm; unfold Graphql.graphql_error;
                        now rewrite prefix_append]].
      intros e m Hin Hm.
      destruct (joined_messages_includes errors e m Hin Hm) as [pre [post Hj]].
      unfold Graphql.graphql_error. rewrite Hj.
      replace ("GraphQL error: " ++ pre ++ m ++ post)
        with (("GraphQL error: " ++ pre) ++ m ++ post)
        by (rewrite !string_append_assoc; reflexivity).
      apply includes_append.
  - split; [reflexivity | eauto].
Qed.

(** A message that names a scope is a permission problem; one that
    does not, and carries no ACCESS_DENIED code, is not. *)
Example executeWithTimeout_examples :
  let denied := {| Graphql.err_message := Some "missing scope read_orders";
                   Graphql.err_code := None |} in
  let other := {| Graphql.err_message := Some "Field 'x' doesn't exist";
                  Graphql.err_code := None |} in
  Graphql.executeWithTimeout (T := nat)
    (Graphql.Rejected (Graphql.ClientError (Some [other]) 200))
  = inr (Graphql.NewError "GraphQL error: Field 'x' doesn't exist")
  /\ Graphql.is_permission_error denied = true
  /\ Graphql.executeWithTimeout (T := nat)
       (Graphql.Rejected (Graphql.ClientError None 500))
     = inr (Graphql.NewError "GraphQL error: ")
  /\ Graphql.executeWithTimeout
       (Graphql.Rejected (T := nat) (Graphql.OtherError "timed out"))
     = inr (Graphql.Rethrown (Graphql.OtherError "timed out")).
Proof. vm_compute. repeat split. Qed.

(** ** Isolation between tokens *)

Lemma get_cache_insert_other N k e c k' v :
  JsMap.wf c -> k' <> k ->
  JsMap.get k' (fst (cache_insert N k e c)) = Some v -> JsMap.get k' c = Some v.
Proof.
  intros Hwf Hne H. unfold cache_insert, enforce_limit in H.
  assert (G : JsMap.get k' (JsMap.set k e c) = Some v).
  { destruct (_ >? N); [|exact H].
    eapply get_evict_loop_inv; [now apply JsMapFacts.wf_set | exact H]. }
  now rewrite get_set_other in G by exact Hne.
Qed.

Lemma get_cache_lookup_inv t k c k' v :
  JsMap.wf c ->
  JsMap.get k' (snd (cache_lookup t k c)) = Some v -> JsMap.get k' c = Some v.
Proof.
  intros Hwf. unfold cache_lookup.
  destruct (JsMap.get k c) as [cached|]; [|tauto].
  destruct (t <? expiry cached); [tauto|]. now apply get_delete_inv.
Qed.

(** X18. Validating one token never creates or changes the cache entry
    of another: an entry found afterwards under a key other than the
    token's digest was there before, unchanged (it can only have been
    evicted); and with room in the cache every other entry is kept. *)
Theorem validation_leaves_other_entries decode cfg env token w k :
  JsMap.wf (tokenCache w) ->
  k <> hashToken token ->
  let c' := tokenCache (snd (verifyOAuthToken decode cfg env token w)) in
  (forall e, JsMap.get k c' = Some e -> JsMap.get k (tokenCache w) = Some e)
  /\ (Z.of_nat (JsMap.size (tokenCache w)) < TOKEN_CACHE_MAX_SIZE cfg ->
      JsMap.get k c' = JsMap.get k (tokenCache w)).
Proof.
  intros Hwf Hne c'. subst c'. unfold verifyOAuthToken.
  generalize dependent (hashToken token). intros h Hne.
  destruct (domain_of cfg) as [d|]; [|simpl; auto].
  destruct (match truthy_expiry _ with Some x => x <=? now env | None => false end).
  { simpl. split.
    - intros e. now apply get_delete_inv.
    - intros _. now apply JsMapFacts.get_delete_other. }
  pose proof (wf_cache_lookup (now env) h (tokenCache w) Hwf) as Hwf1.
  pose proof (get_cache_lookup_inv (now env) h (tokenCache w) k) as Hl.
  pose proof (size_cache_lookup_le (now env) h (tokenCache w)) as Hsz.
  assert (Hl2 : JsMap.get k (snd (cache_lookup (now env) h (tokenCache w)))
                = JsMap.get k (tokenCache w)).
  { unfold cache_lookup. destruct (JsMap.get h (tokenCache w)) as [cached|];
      [|reflexivity].
    destruct (now env <? expiry cached); [reflexivity|].
    now apply JsMapFacts.get_delete_other. }
  destruct (cache_lookup (now env) h (tokenCache w)) as [[hit|] c1];
    simpl in *; [auto|].
  assert (Hsame : (forall e, JsMap.get k c1 = Some e ->
                             JsMap.get k (tokenCache w) = Some e)
                  /\ (Z.of_nat (JsMap.size (tokenCache w)) < TOKEN_CACHE_MAX_SIZE cfg ->
                      JsMap.get k c1 = JsMap.get k (tokenCache w)))
    by (split; [intros e; apply Hl; exact Hwf | intros _; exact Hl2]).
  destruct (fetch env _ _) as [|[] st [info|]]; simpl; try exact Hsame.
  assert (Hins : forall entry,
            (forall e, JsMap.get k (fst (cache_insert (TOKEN_CACHE_MAX_SIZE cfg) h entry c1))
                       = Some e -> JsMap.get k (tokenCache w) = Some e)
            /\ (Z.of_nat (JsMap.size (tokenCache w)) < TOKEN_CACHE_MAX_SIZE cfg ->
                JsMap.get k (fst (cache_insert (TOKEN_CACHE_MAX_SIZE cfg) h entry c1))
                = JsMap.get k (tokenCache w))).
  { intros entry. split.
    - intros e He. apply Hl; [exact Hwf|].
      eapply get_cache_insert_other; eauto.
    - intros Hroom. unfold cache_insert, enforce_limit.
      pose proof (size_set_le c1 h entry) as Hset.
      destruct (Z.gtb_spec (Z.of_nat (JsMap.size (JsMap.set h entry c1)))
                           (TOKEN_CACHE_MAX_SIZE cfg)) as [Hgt|_]; [lia|].
      simpl. rewrite get_set_other by exact Hne. exact Hl2. }
  destruct (user_label_throws info); simpl; try exact Hsame;
    match goal with
    | |- context [cache_insert ?N ?kk ?entry ?c] =>
        specialize (Hins entry);
        destruct (cache_insert N kk entry c) as [c2 []]; simpl in *; exact Hins
    end.
Qed.

Lemma validation_leaves_other_entries_witness :
  let w := {| tokenCache := [("other", Sample.entry Sample.bob 5000)];
              userinfoCalls := [] |} in
  JsMap.get "other"
    (tokenCache (snd (verifyOAuthToken Sample.decoder Sample.cfg
                        (Sample.accepting 1000) "tokA" w)))
  = JsMap.get "other" (tokenCache w).
Proof.
  intros w.
  assert (Hwf : JsMap.wf (tokenCache w)) by solve_wf.
  assert (Hne : "other" <> hashToken "tokA") by (vm_compute; discriminate).
  apply (proj2 (validation_leaves_other_entries Sample.decoder Sample.cfg
                  (Sample.accepting 1000) "tokA" w "other" Hwf Hne)).
  simpl. lia.
Defined.

(** ** The credential handed to the validator *)

(** [trim] cuts a blank prefix and a blank suffix, nothing else, and
    leaves no white space at either end. *)
Lemma trim_decompose s :
  exists l r, s = l ++ JsString.trim s ++ r
              /\ all_space l = true /\ all_space r = true
              /\ clean_ends (JsString.trim s) = true.
Proof.
  destruct (trimStart_decompose s) as [l [Hs Hl]].
  destruct (trimEnd_decompose (JsString.trimStart s)) as [r [Ht Hr]].
  exists l, r. unfold JsString.trim.
  split; [|split; [exact Hl|split; [exact Hr | apply trim_clean_ends]]].
  rewrite <- Ht. exact Hs.
Qed.

(** With no live entry for a token that is not locally expired, the
    validator does ask the identity provider, and the answer decides. *)
Lemma verifyOAuthToken_asks decode cfg env token w d :
  domain_of cfg = Some d ->
  not_expired_locally decode (now env) token ->
  (forall i, ~ live_entry (now env) (hashToken token) (tokenCache w) i) ->
  let r := verifyOAuthToken decode cfg env token w in
  userinfoCalls (snd r)
  = (userinfoCalls w ++ [(userinfoUrl d, ("Bearer " ++ token)%string)])%list
  /\ (provider_failed (fetch env (userinfoUrl d) ("Bearer " ++ token)) = true ->
      fst r = None)
  /\ (0 <= TOKEN_CACHE_MAX_SIZE cfg -> JsMap.wf (tokenCache w) ->
      forall info, provider_vouches env d token info -> fst r = Some info).
Proof.
  intros Hd Hne Hnone r. subst r. unfold verifyOAuthToken, provider_vouches.
  rewrite Hd, (expired_check_false _ _ _ Hne).
  pose proof (wf_cache_lookup (now env) (hashToken token) (tokenCache w)) as Hwf1.
  destruct (cache_lookup (now env) (hashToken token) (tokenCache w))
    as [[hit|] c1] eqn:Hl.
  { exfalso. apply (Hnone hit). apply cache_lookup_hit_iff. now rewrite Hl. }
  simpl in Hwf1.
  destruct (fetch env (userinfoUrl d) ("Bearer " ++ token)) as [|ok st body] eqn:Hf.
  - simpl. split; [reflexivity|]. split; [reflexivity|].
    intros _ _ info [[st0 H0] _]. discriminate H0.
  - destruct ok; [destruct body as [body|]|].
    + destruct (user_label_throws body) eqn:Hlog.
      * simpl. split; [reflexivity|]. split; [discriminate|].
        intros _ _ info [[st0 H0] Hv]. inversion H0; subst. congruence.
      * split; [|split].
        -- destruct (cache_insert _ _ _ _) as [c2 []]; reflexivity.
        -- discriminate.
        -- intros HN Hwf info [[st0 H0] _]. inversion H0; subst.
           match goal with
           | |- context [cache_insert ?N ?k ?e ?c] =>
               destruct (cache_insert_no_fault N k e c HN (Hwf1 Hwf)) as [Hnf _];
               destruct (cache_insert N k e c) as [c2 threw]; simpl in Hnf; subst threw
           end.
           reflexivity.
    + simpl. split; [reflexivity|]. split; [reflexivity|].
      intros _ _ info [[st0 H0] _]. discriminate H0.
    + simpl. split; [reflexivity|]. split; [reflexivity|].
      intros _ _ info [[st0 H0] _]. discriminate H0.
Qed.

(** C10. On a protected route of a configured gateway, the credential is
    the Authorization header with the first [Bearer ] cut out and the white
    space around it removed. The cut takes out [Bearer ] where it first
    occurs and nothing when it does not occur; the credential is what is
    left of the cut between a blank prefix and a blank suffix, and has no
    white space at either end. An empty credential is answered 401 at
    once. Any other is handed to the validator as it is, whatever the
    scheme: the world after the gate is the world after validating exactly
    that credential, and the request proceeds exactly when the validator
    returns truthy claims. In particular, when the credential is not
    locally expired and has no live cache entry, it is forwarded: one
    request carrying it goes to the identity provider, a failure there is
    answered 401 with the invalid-token challenge, and an answer the
    validator keeps lets the request proceed exactly when the claims are
    truthy. *)
Theorem gate_credential_extraction decode cfg env req w d :
  is_exempt req = false ->
  JsString.startsWith (path req) "/mcp" = true ->
  domain_of cfg = Some d ->
  let H := header_text (authorization req) in
  let cut := JsString.remove_first "Bearer " H in
  let token := JsString.trim cut in
  let out := authMiddleware decode cfg env req w in
  (forall pre post,
      H = pre ++ "Bearer " ++ post ->
      (forall i, (i < String.length pre)%nat -> occurs_at "Bearer " H i = false) ->
      cut = pre ++ post /\ token = JsString.trim (pre ++ post))
  /\ ((forall i, occurs_at "Bearer " H i = false) ->
      cut = H /\ token = JsString.trim H)
  /\ (exists l r, cut = l ++ token ++ r
                  /\ all_space l = true /\ all_space r = true
                  /\ clean_ends token = true)
  /\ (token = EmptyString ->
      out = (Respond 401 [("WWW-Authenticate", challenge_no_token cfg)]
                     "Unauthorized - No token", w))
  /\ (token <> EmptyString ->
      snd out = snd (verifyOAuthToken decode cfg env token w)
      /\ (fst out = Next <->
          exists info, fst (verifyOAuthToken decode cfg env token w) = Some info
                       /\ Js.truthy info = true)
      /\ (userinfoCalls (snd out) = userinfoCalls w
          \/ userinfoCalls (snd out)
             = (userinfoCalls w ++ [(userinfoUrl d, ("Bearer " ++ token)%string)])%list))
  /\ (token <> EmptyString ->
      not_expired_locally decode (now env) token ->
      (forall i, ~ live_entry (now env) (hashToken token) (tokenCache w) i) ->
      userinfoCalls (snd out)
      = (userinfoCalls w ++ [(userinfoUrl d, ("Bearer " ++ token)%string)])%list
      /\ (provider_failed (fetch env (userinfoUrl d) ("Bearer " ++ token)) = true ->
          fst out = Respond 401 [("WWW-Authenticate", challenge_invalid_token cfg)]
                            "Unauthorized")
      /\ (0 <= TOKEN_CACHE_MAX_SIZE cfg -> JsMap.wf (tokenCache w) ->
          forall info, provider_vouches env d token info ->
                       (fst out = Next <-> Js.truthy info = true))).
Proof.
  intros He Hp Hd H cut token out.
  assert (Hout : token <> EmptyString ->
            out = match verifyOAuthToken decode cfg env token w with
                  | (Some info, w') =>
                      if Js.truthy info then (Next, w')
                      else (Respond 401 [("WWW-Authenticate", challenge_invalid_token cfg)]
                                    "Unauthorized", w')
                  | (None, w') =>
                      (Respond 401 [("WWW-Authenticate", challenge_invalid_token cfg)]
                               "Unauthorized", w')
                  end).
  { intros Ht. unfold out, authMiddleware. rewrite He, Hp, Hd.
    change (bearer_token req) with token.
    destruct token; [contradiction Ht; reflexivity | reflexivity]. }
  split; [|split; [|split; [|split; [|split]]]].
  - intros pre post HH Hfirst.
    assert (Hcut : cut = pre ++ post).
    { unfold cut. rewrite HH. apply remove_first_at.
      intros i Hi. rewrite <- HH. now apply Hfirst. }
    split; [exact Hcut | unfold token; now rewrite Hcut].
  - intros Hnone.
    assert (Hcut : cut = H) by (unfold cut; now apply remove_first_none).
    split; [exact Hcut | unfold token; now rewrite Hcut].
  - apply trim_decompose.
  - intros Ht. apply (gate_no_token decode cfg env req w d He Hp Hd). exact Ht.
  - intros Ht. specialize (Hout Ht).
    pose proof (verifyOAuthToken_calls decode cfg env token w d Hd) as Hcalls.
    simpl in Hcalls.
    destruct (verifyOAuthToken decode cfg env token w) as [[info|] w'] eqn:Ev;
      rewrite Hout; simpl in *.
    + destruct (Js.truthy info) eqn:Etr; simpl.
      * split; [reflexivity|]. split; [|exact Hcalls].
        split; [intros _; exists info; auto | reflexivity].
      * split; [reflexivity|]. split; [|exact Hcalls].
        split; [discriminate|]. intros [i [[= <-] Hi]]. congruence.
    + split; [reflexivity|]. split; [|exact Hcalls].
      split; [discriminate|]. intros [i [Hi _]]. discriminate.
  - intros Ht Hne Hnone. specialize (Hout Ht).
    destruct (verifyOAuthToken_asks decode cfg env token w d Hd Hne Hnone)
      as [Hsent [Hfail Hok]].
    destruct (verifyOAuthToken decode cfg env token w) as [[info|] w'] eqn:Ev;
      rewrite Hout; simpl in *.
    + split; [destruct (Js.truthy info); exact Hsent|]. split.
      * intros Hf. specialize (Hfail Hf). discriminate Hfail.
      * intros HN Hwf info' Hv. specialize (Hok HN Hwf info' Hv).
        inversion Hok; subst info'.
        destruct (Js.truthy info); simpl; split; auto; discriminate.
    + split; [exact Hsent|]. split; [reflexivity|].
      intros HN Hwf info' Hv. specialize (Hok HN Hwf info' Hv). discriminate Hok.
Qed.

Lemma gate_credential_extraction_witness :
  let req := Sample.request "POST" "/mcp" (Some "Basic abc") None Sample.initialize in
  let out := authMiddleware Sample.decoder Sample.cfg (Sample.accepting 1000) req
                            initial_world in
  userinfoCalls (snd out) = [("https://idp.example/userinfo", "Bearer Basic abc")]
  /\ fst out = Next.
Proof.
  intros req out.
  destruct (gate_credential_extraction Sample.decoder Sample.cfg (Sample.accepting 1000)
              req initial_world "idp.example" eq_refl eq_refl eq_refl)
    as [_ [_ [_ [_ [_ Hfwd]]]]].
  assert (Hne : not_expired_locally Sample.decoder 1000 "Basic abc")
    by (intros e He; vm_compute in He; discriminate He).
  assert (Hnone : forall i, ~ live_entry 1000 (hashToken "Basic abc") [] i)
    by (intros i [E [Hget _]]; discriminate Hget).
  destruct (Hfwd ltac:(discriminate) Hne Hnone) as [Hsent [_ Hok]].
  split; [exact Hsent|].
  apply (Hok ltac:(simpl; lia) ltac:(constructor) Sample.alice).
  - split; [exists 200; reflexivity | reflexivity].
  - reflexivity.
Defined.

(** A header of another scheme is not refused by the gate: its whole
    value goes to the identity provider as the token. *)
Example gate_forwards_basic_scheme :
  let req := Sample.request "POST" "/mcp" (Some "Basic abc") None Sample.initialize in
  let out := authMiddleware Sample.decoder Sample.cfg (Sample.accepting 1000) req
                            initial_world in
  bearer_token req = "Basic abc"
  /\ fst out = Next
  /\ userinfoCalls (snd out) = [("https://idp.example/userinfo", "Bearer Basic abc")].
Proof. vm_compute. repeat split. Qed.

(** Only the first [Bearer ] is cut, wherever it stands. *)
Example bearer_token_examples :
  bearer_token (Sample.request "GET" "/mcp" (Some "Bearer abc") None JNull) = "abc"
  /\ bearer_token (Sample.request "GET" "/mcp" (Some "  Bearer  abc  ") None JNull) = "abc"
  /\ bearer_token (Sample.request "GET" "/mcp" (Some "xBearer yBearer z") None JNull)
     = "xyBearer z"
  /\ bearer_token (Sample.request "GET" "/mcp" (Some "bearer abc") None JNull)
     = "bearer abc".
Proof. vm_compute. repeat split. Qed.
